(** * Clearpath Nexus: a shallow embedding of the chat frontend and of the
      retrieval core, with the properties stated about them.

    The TypeScript sources embedded here are
    - [app/frontend/src/api/models.ts]   (module [Models]),
    - [app/frontend/src/api/api.ts]      (module [Api]),
    - [components/Chat/Chat.tsx]         (module [Chat]),
    - [components/Chat/DebugPanel.tsx]   (module [DebugPanel]),
    - [App.tsx]                          (modules [App], [ChatEffects]).
    The Python backend is not part of the sources; the stages of its
    retriever are modelled from the specification in [Retriever], and every
    such definition says so.

    JavaScript strings are embedded as the bytes of their UTF-8 encoding
    ([string]).  The characters the code inspects (brackets, digits, signs)
    are ASCII, whose bytes never occur inside a multi-byte sequence; white
    space is recognised by the encodings of its characters ([Js.white_space]);
    lengths and cuts of a text count UTF-16 code units, as JavaScript does
    ([Browser.utf16_length], [Browser.string_slice]).  An unpaired surrogate
    has no UTF-8 encoding: where a cut leaves one, the embedding has U+FFFD,
    as every encoder of the platform does.  A JavaScript [number] that is
    only passed around is a rational ([Q]). *)

From Stdlib Require Import List String Ascii ZArith QArith Qreals Reals.
From Stdlib Require Import Bool Lia Lra Permutation Sorted DecimalString.
From Equations Require Import Equations.
Import ListNotations.

Local Open Scope string_scope.
Local Open Scope list_scope.

(* ===================================================================== *)
(** * Part I.  The embedding                                              *)
(* ===================================================================== *)

(** ** JavaScript primitives used by the frontend *)
Module Js.

(** [number]: a value that the frontend only stores and displays. *)
Definition number : Type := Q.

(** The exceptions the frontend can meet, by constructor. *)
Inductive JsError : Type :=
| Error (message : string)
| SyntaxError (message : string)
| TypeError (message : string).

(** The outcome of evaluating an expression that may throw (or of awaiting
    a promise: resolved or rejected). *)
Inductive Completion (A : Type) : Type :=
| Return (a : A)
| Throw (e : JsError).
Arguments Return {A} a.
Arguments Throw {A} e.

Definition bind {A B : Type} (c : Completion A) (k : A -> Completion B) : Completion B :=
  match c with
  | Return a => k a
  | Throw e => Throw e
  end.

(** [String(n)] for an integer [n]. *)
Definition string_of_Z (z : Z) : string := NilZero.string_of_int (Z.to_int z).

(** The UTF-8 bytes of a character, given by their values. *)
Definition utf8 (bytes : list nat) : list ascii := map ascii_of_nat bytes.

(** The white space and line terminator characters of ECMAScript, which
    [trim] and [parseInt] skip, as UTF-8: TAB, LF, VT, FF, CR, SP, U+00A0,
    U+1680, U+2000 to U+200A, U+2028, U+2029, U+202F, U+205F, U+3000 and
    U+FEFF. *)
Definition white_space : list (list ascii) :=
  map utf8
    [ [9]; [10]; [11]; [12]; [13]; [32];
      [194; 160];
      [225; 154; 128];
      [226; 128; 128]; [226; 128; 129]; [226; 128; 130]; [226; 128; 131];
      [226; 128; 132]; [226; 128; 133]; [226; 128; 134]; [226; 128; 135];
      [226; 128; 136]; [226; 128; 137]; [226; 128; 138];
      [226; 128; 168]; [226; 128; 169]; [226; 128; 175];
      [226; 129; 159];
      [227; 128; 128];
      [239; 187; 191] ]%nat.

Definition is_digit (c : ascii) : bool :=
  let n := nat_of_ascii c in (48 <=? n)%nat && (n <=? 57)%nat.

(** What follows [w] in [l], when [l] starts with [w]. *)
Fixpoint after_prefix (w l : list ascii) : option (list ascii) :=
  match w, l with
  | [], _ => Some l
  | a :: w', b :: l' => if (a =? b)%char then after_prefix w' l' else None
  | _ :: _, [] => None
  end.

(** What follows the first character of [l], when it is one of [table]. *)
Fixpoint skip_one (table : list (list ascii)) (l : list ascii) : option (list ascii) :=
  match table with
  | [] => None
  | w :: ws =>
      match after_prefix w l with
      | Some r => Some r
      | None => skip_one ws l
      end
  end.

(** [l] without its leading characters of [table]; [fuel] bounds the
    number of characters skipped. *)
Fixpoint skip_all (fuel : nat) (table : list (list ascii)) (l : list ascii) : list ascii :=
  match fuel with
  | O => l
  | S n =>
      match skip_one table l with
      | Some r => skip_all n table r
      | None => l
      end
  end.

(** Leading white space removed; a text has no more characters than
    bytes. *)
Definition drop_spaces (l : list ascii) : list ascii :=
  skip_all (List.length l) white_space l.

(** Trailing white space removed: the same on the reversed bytes, with
    each character's bytes reversed. *)
Definition drop_spaces_end (l : list ascii) : list ascii :=
  rev (skip_all (List.length l) (map (@rev ascii) white_space) (rev l)).

(** [s.trimStart()] *)
Definition trimStart (s : string) : string :=
  string_of_list_ascii (drop_spaces (list_ascii_of_string s)).

(** [s.trim()] *)
Definition trim (s : string) : string :=
  string_of_list_ascii (drop_spaces_end (drop_spaces (list_ascii_of_string s))).

(** Truthiness of a string: only the empty string is falsy. *)
Definition truthy_string (s : string) : bool := negb (s =? "")%string.

(** Clamping of a relative index, as [Array.prototype.slice] does it:
    a negative index counts from the end. *)
Definition relative_index (len i : Z) : Z :=
  if (i <? 0)%Z then Z.max (len + i) 0 else Z.min i len.

(** [arr.slice(start, end)]; [end_ = None] is an omitted second argument. *)
Definition slice {A : Type} (start : Z) (end_ : option Z) (arr : list A) : list A :=
  let len := Z.of_nat (List.length arr) in
  let k := relative_index len start in
  let final := match end_ with
               | Some e => relative_index len e
               | None => len
               end in
  firstn (Z.to_nat (final - k)) (skipn (Z.to_nat k) arr).

(** [arr[i]] for a number [i]; [None] stands for NaN as an index and for the
    result [undefined].  Only an integer in [0, length) names an element. *)
Definition array_get {A : Type} (arr : list A) (i : option Z) : option A :=
  match i with
  | Some z => if (0 <=? z)%Z then nth_error arr (Z.to_nat z) else None
  | None => None
  end.

(** Value of a digit in the given radix. *)
Definition digit_value (radix : Z) (c : ascii) : option Z :=
  let n := Z.of_nat (nat_of_ascii c) in
  let v := if ((48 <=? n) && (n <=? 57))%Z then Some (n - 48)%Z
           else if ((97 <=? n) && (n <=? 122))%Z then Some (n - 87)%Z
           else if ((65 <=? n) && (n <=? 90))%Z then Some (n - 55)%Z
           else None in
  match v with
  | Some d => if (d <? radix)%Z then Some d else None
  | None => None
  end.

(** The longest prefix of radix digits, read as an integer; [acc] is the
    value read so far ([None]: no digit yet). *)
Fixpoint parse_digits (radix : Z) (acc : option Z) (s : string) : option Z :=
  match s with
  | String c r =>
      match digit_value radix c with
      | Some d =>
          parse_digits radix
            (Some (match acc with Some a => a * radix + d | None => d end)%Z) r
      | None => acc
      end
  | EmptyString => acc
  end.

(** [parseInt(s)] with no radix argument: leading blanks, an optional sign,
    an optional [0x]/[0X] prefix, then digits; [None] is NaN.  The result is
    the exact integer: a JavaScript number rounds it above 2^53, which keeps
    it far beyond any array length. *)
Definition parseInt (s : string) : option Z :=
  let s1 := trimStart s in
  let '(sign, s2) :=
    match s1 with
    | String c r =>
        if (c =? "-")%char then ((-1)%Z, r)
        else if (c =? "+")%char then (1%Z, r)
        else (1%Z, s1)
    | EmptyString => (1%Z, s1)
    end in
  let '(radix, s3) :=
    match s2 with
    | String c0 (String c1 r) =>
        if ((c0 =? "0") && ((c1 =? "x") || (c1 =? "X")))%char
        then (16%Z, r) else (10%Z, s2)
    | _ => (10%Z, s2)
    end in
  option_map (Z.mul sign) (parse_digits radix None s3).

(** [idx - 1] on a number that may be NaN. *)
Definition minus_one (n : option Z) : option Z := option_map (fun z => (z - 1)%Z) n.

(** [strs.join(sep)] *)
Definition join (sep : string) (strs : list string) : string := String.concat sep strs.

End Js.

(** ** Text predicates shared by the models *)
Module Text.

(** Every character of [s] satisfies [P]. *)
Fixpoint all_chars (P : ascii -> bool) (s : string) : bool :=
  match s with
  | String c r => P c && all_chars P r
  | EmptyString => true
  end.

(** The first character of [s] exists and satisfies [P]. *)
Definition first_sat (P : ascii -> bool) (s : string) : bool :=
  match s with
  | String c _ => P c
  | EmptyString => false
  end.

(** A byte of an ASCII character: one byte and one UTF-16 code unit. *)
Definition is_ascii (c : ascii) : bool := (nat_of_ascii c <? 128)%nat.

End Text.

(** ** [api/models.ts] *)
Module Models.
Import Js.

Record MetadataTokens : Type := {
  input : number;
  output : number
}.

Record MetadataResponse : Type := {
  model_used : string;
  classification : string;
  tokens : MetadataTokens;
  latency_ms : number;
  retrieval_latency_ms : number;
  num_chunks_retrieved : number;
  avg_similarity_score : number;
  routing_score : number;
  evaluator_flags : list string
}.

Record SourceResponse : Type := {
  document : string;
  section : option string;
  page : option number;
  relevance_score : option number
}.

Record QueryResponse : Type := {
  answer : string;
  metadata : MetadataResponse;
  sources : list SourceResponse;
  conversation_id : string
}.

Inductive Role : Type := user | bot.

Record ChatMessage : Type := {
  role : Role;
  text : string
}.

(** The optional fields [conversation_id?] and [history?] are options. *)
Record QueryRequest : Type := {
  question : string;
  request_conversation_id : option string;
  history : option (list ChatMessage)
}.

End Models.

(** ** [api/api.ts] *)
Module Api.
Import Js Models.

Definition Uint8Array : Type := list Byte.byte.

(** How the body stream ends: [reader.read()] reports [done], or rejects. *)
Inductive StreamEnd : Type := StreamDone | StreamFailed.

(** What the reader of [response.body] delivers: the chunks read, in order,
    then the end of the stream. *)
Record BodyStream : Type := {
  chunks : list Uint8Array;
  ending : StreamEnd
}.

(** The platform's [Response]: the status, the value [response.json()]
    resolves to ([None]: the body is not JSON and the promise rejects with a
    SyntaxError), and the body stream ([None]: [response.body] is null). *)
Record Response : Type := {
  status : Z;
  json : option QueryResponse;
  body : option BodyStream
}.

(** [response.ok]: the status is in the range 200-299. *)
Definition ok (r : Response) : bool := ((200 <=? status r) && (status r <=? 299))%Z.

(** The promise [fetch] returns: rejected (network failure) or resolved. *)
Inductive FetchResult : Type :=
| Rejected
| Resolved (response : Response).

(** What the module takes from its surroundings: the configured base URL
    ([config.ts]), [fetch] for a POST of a JSON body to a URL, and the
    platform's [TextDecoder.decode]. *)
Record Platform : Type := {
  API_BASE_URL : string;
  fetch : string -> QueryRequest -> FetchResult;
  decode : Uint8Array -> string
}.

Definition fetch_failed : JsError := TypeError "Failed to fetch".
Definition json_failed : JsError := SyntaxError "Unexpected token in JSON".

Definition api_error (r : Response) : JsError :=
  Error ("API error: " ++ string_of_Z (status r)).

(** [askApi(request)] *)
Definition askApi (p : Platform) (request : QueryRequest) : Completion QueryResponse :=
  match fetch p (API_BASE_URL p ++ "/query") request with
  | Rejected => Throw fetch_failed
  | Resolved response =>
      if negb (ok response) then Throw (api_error response)
      else match json response with
           | Some parsed => Return parsed
           | None => Throw json_failed
           end
  end.

(** A run of an async generator: the values yielded, in order, and how the
    generator finished. *)
Record GeneratorRun : Type := {
  yielded : list string;
  finished : Completion unit
}.

(** [askStreamApi(request)]: one decoded string per chunk read. *)
Definition askStreamApi (p : Platform) (request : QueryRequest) : GeneratorRun :=
  match fetch p (API_BASE_URL p ++ "/query_stream") request with
  | Rejected => {| yielded := []; finished := Throw fetch_failed |}
  | Resolved response =>
      if negb (ok response)
      then {| yielded := []; finished := Throw (api_error response) |}
      else match body response with
           | None => {| yielded := []; finished := Return tt |}
           | Some reader =>
               {| yielded := map (decode p) (chunks reader);
                  finished := match ending reader with
                              | StreamDone => Return tt
                              | StreamFailed => Throw fetch_failed
                              end |}
           end
  end.

End Api.

(** ** [components/Chat/Chat.tsx] *)
Module Chat.
Import Js Models.

Record Message : Type := {
  id : string;
  msg_role : Role;
  msg_text : string;
  msg_sources : option (list SourceResponse)
}.

(** *** The [Citation] component *)

(** The two [useState] cells of a citation. *)
Record CitationState : Type := {
  isHovered : bool;
  isClicked : bool
}.

(** What the component renders: the plain span, or the clickable span with
    its class suffix, title and text. *)
Inductive CitationView : Type :=
| PlainCitation (label : string)
| ClickableCitation (active : bool) (title : string) (label : string).

(** Reading a property: of an object it gives the field, of [undefined] it
    throws a TypeError. *)
Definition read {A B : Type} (obj : option A) (field : A -> B) : Completion B :=
  match obj with
  | Some o => Return (field o)
  | None => Throw (TypeError "Cannot read properties of undefined")
  end.

(** Truthiness of an optional number: [undefined] and 0 are falsy. *)
Definition truthy_number (n : option number) : bool :=
  match n with
  | Some q => negb (Qeq_bool q 0)
  | None => false
  end.

(** [!source] for a value that is an object or [undefined]. *)
Definition falsy {A : Type} (v : option A) : bool :=
  match v with
  | Some _ => false
  | None => true
  end.

(** A number inside a template literal; [show] prints a number. *)
Definition template_number (show : number -> string) (n : option number) : string :=
  match n with
  | Some q => show q
  | None => "undefined"
  end.

Definition bracketed (index : string) : string := ("[" ++ index ++ "]")%string.

(** [sources ? sources[idx - 1] : undefined], with [idx = parseInt(index)]. *)
Definition cited_source (index : string) (sources : option (list SourceResponse))
  : option SourceResponse :=
  let idx := parseInt index in
  match sources with
  | Some arr => array_get arr (minus_one idx)
  | None => None
  end.

(** [Citation({ index, sources })], rendered in the state [st]. *)
Definition Citation (show : number -> string) (index : string)
    (sources : option (list SourceResponse)) (st : CitationState)
  : Completion CitationView :=
  let source := cited_source index sources in
  if falsy source then Return (PlainCitation (bracketed index))
  else
    bind (read source document) (fun doc =>
    bind (read source page) (fun pg =>
    bind (read source relevance_score) (fun rel =>
      let title :=
        (doc
         ++ (if truthy_number pg
             then " (Page " ++ template_number show pg ++ ")" else "")
         ++ " - Relevance: " ++ template_number show rel)%string in
      let active := isHovered st || isClicked st in
      Return (ClickableCitation active title
                (if active then "?" else bracketed index))))).

(** The [title] attribute of a clickable citation that shows [source]. *)
Definition citation_title (show : number -> string) (source : SourceResponse) : string :=
  (document source
   ++ (if truthy_number (page source)
       then " (Page " ++ template_number show (page source) ++ ")" else "")
   ++ " - Relevance: " ++ template_number show (relevance_score source))%string.

(** *** [formatCitations] *)

(** [\d+] at the start of [s]: the longest run of digits and what follows.
    The run is greedy; giving back a digit never helps the match, since the
    character after a shorter run is a digit and not the closing bracket. *)
Fixpoint span_digits (s : string) : string * string :=
  match s with
  | String c r =>
      if is_digit c
      then let (ds, rest) := span_digits r in (String c ds, rest)
      else (EmptyString, s)
  | EmptyString => (EmptyString, EmptyString)
  end.

(** The pattern [/\[(\d+)\]/] matched at the start of [s]: the text of
    group 1 and the text after the match. *)
Definition match_cite (s : string) : option (string * string) :=
  match s with
  | String c r =>
      if (c =? "[")%char then
        match span_digits r with
        | (String d ds, String c' rest) =>
            if (c' =? "]")%char then Some (String d ds, rest) else None
        | _ => None
        end
      else None
  | EmptyString => None
  end.

Lemma span_digits_length s ds rest :
  span_digits s = (ds, rest) ->
  String.length s = (String.length ds + String.length rest)%nat.
Proof.
  revert ds rest. induction s as [|c r IH]; intros ds rest H; simpl in H.
  - inversion H. reflexivity.
  - destruct (is_digit c).
    + destruct (span_digits r) as [ds' rest'] eqn:E. inversion H; subst.
      simpl. rewrite (IH _ _ eq_refl). reflexivity.
    + inversion H; subst. reflexivity.
Qed.

Lemma match_cite_shorter s g rest :
  match_cite s = Some (g, rest) -> (String.length rest < String.length s)%nat.
Proof.
  unfold match_cite. destruct s as [|c r]; [discriminate|].
  destruct (c =? "[")%char; [|discriminate].
  destruct (span_digits r) as [ds rest'] eqn:E.
  destruct ds as [|d ds]; [discriminate|].
  destruct rest' as [|c' rest'']; [discriminate|].
  destruct (c' =? "]")%char; [|discriminate].
  intros H; inversion H; subst. apply span_digits_length in E. simpl in *. lia.
Qed.

Definition inspect {A : Type} (a : A) : {b : A | a = b} := exist _ a eq_refl.

(** [text.replace(/\[(\d+)\]/g, '<cite>$1</cite>')]: scanning from the left,
    a match is replaced and the scan goes on after it; where nothing matches,
    the character is kept and the scan moves one character on. *)
Equations? formatCitations (text : string) : string by wf (String.length text) lt :=
  formatCitations EmptyString := EmptyString;
  formatCitations (String c r) with inspect (match_cite (String c r)) => {
    | exist _ (Some (g1, rest)) H :=
        ("<cite>" ++ g1 ++ "</cite>" ++ formatCitations rest)%string;
    | exist _ None _ := String c (formatCitations r) }.
Proof.
  exact (match_cite_shorter (String c r) g1 rest H).
Qed.

(** [/\[(\d+)\]/.test(s)]: the pattern matches somewhere in [s]. *)
Fixpoint has_citation (s : string) : bool :=
  match match_cite s with
  | Some _ => true
  | None =>
      match s with
      | String _ r => has_citation r
      | EmptyString => false
      end
  end.

(** The markdown source handed to the renderer for one message. *)
Definition message_markdown (m : Message) : string :=
  match msg_role m with
  | bot => formatCitations (msg_text m)
  | user => msg_text m
  end.

(** *** [handleSend] *)

(** The [useState] cells of the [Chat] component. *)
Record ChatState : Type := {
  messages : list Message;
  inputValue : string;
  isLoading : bool
}.

Definition setMessages (f : list Message -> list Message) (st : ChatState) : ChatState :=
  {| messages := f (messages st);
     inputValue := inputValue st;
     isLoading := isLoading st |}.

Definition setInputValue (v : string) (st : ChatState) : ChatState :=
  {| messages := messages st; inputValue := v; isLoading := isLoading st |}.

Definition setIsLoading (b : bool) (st : ChatState) : ChatState :=
  {| messages := messages st; inputValue := inputValue st; isLoading := b |}.

(** What one call of [handleSend] did: the state it leaves, the request it
    passed to [askApi] (if any), and the calls of the two callbacks. *)
Record SendRun : Type := {
  state_after : ChatState;
  request_sent : option QueryRequest;
  first_message : option string;
  metadata_update : option QueryResponse
}.

Definition failure_text : string := "An error occurred while fetching the response.".

(** Internal [Message] to API [ChatMessage]. *)
Definition to_chat_message (m : Message) : ChatMessage :=
  {| role := msg_role m; text := msg_text m |}.

(** [handleSend()], called in the render whose state is [st]; [askApi] is
    the imported function, [now1] and [now2] the two readings of
    [Date.now()] (before and after the request). *)
Definition handleSend (askApi : QueryRequest -> Completion QueryResponse)
    (now1 now2 : Z) (st : ChatState) : SendRun :=
  if negb (truthy_string (trim (inputValue st))) || isLoading st then
    {| state_after := st; request_sent := None;
       first_message := None; metadata_update := None |}
  else
    let userText := inputValue st in
    let st1 := setInputValue "" st in
    let first := if (List.length (messages st) =? 0)%nat
                 then Some userText else None in
    let newUserMessage :=
      {| id := string_of_Z now1; msg_role := user;
         msg_text := userText; msg_sources := None |} in
    let st2 := setMessages (fun prev => prev ++ [newUserMessage]) st1 in
    let st3 := setIsLoading true st2 in
    let chatHistory := map to_chat_message (slice (-6) None (messages st)) in
    let request :=
      {| question := userText;
         request_conversation_id := None;
         history := Some chatHistory |} in
    match askApi request with
    | Return response =>
        let st4 :=
          setMessages (fun prev => prev ++
            [{| id := string_of_Z (now2 + 1); msg_role := bot;
                msg_text := answer response;
                msg_sources := Some (sources response) |}]) st3 in
        {| state_after := setIsLoading false st4;
           request_sent := Some request;
           first_message := first;
           metadata_update := Some response |}
    | Throw _ =>
        let st4 :=
          setMessages (fun prev => prev ++
            [{| id := string_of_Z (now2 + 1); msg_role := bot;
                msg_text := failure_text;
                msg_sources := None |}]) st3 in
        {| state_after := setIsLoading false st4;
           request_sent := Some request;
           first_message := first;
           metadata_update := None |}
    end.

(** Names for the values [handleSend] builds, used in the statements of
    Part II: its guard, the request, and the three messages it appends. *)
Definition blocked (st : ChatState) : bool :=
  negb (truthy_string (trim (inputValue st))) || isLoading st.

Definition request_of (st : ChatState) : QueryRequest :=
  {| question := inputValue st;
     request_conversation_id := None;
     history := Some (map to_chat_message (slice (-6) None (messages st))) |}.

Definition user_message (now : Z) (userText : string) : Message :=
  {| id := string_of_Z now; msg_role := user;
     msg_text := userText; msg_sources := None |}.

Definition answer_message (now : Z) (response : QueryResponse) : Message :=
  {| id := string_of_Z (now + 1); msg_role := bot;
     msg_text := answer response; msg_sources := Some (sources response) |}.

Definition failure_message (now : Z) : Message :=
  {| id := string_of_Z (now + 1); msg_role := bot;
     msg_text := failure_text; msg_sources := None |}.

(** [response] with other evaluator flags. *)
Definition with_flags (response : QueryResponse) (flags : list string) : QueryResponse :=
  let m := metadata response in
  {| answer := answer response;
     metadata :=
       {| model_used := model_used m; classification := classification m;
          tokens := tokens m; latency_ms := latency_ms m;
          retrieval_latency_ms := retrieval_latency_ms m;
          num_chunks_retrieved := num_chunks_retrieved m;
          avg_similarity_score := avg_similarity_score m;
          routing_score := routing_score m;
          evaluator_flags := flags |};
     sources := sources response;
     conversation_id := conversation_id response |}.

End Chat.

(** ** [components/Chat/DebugPanel.tsx] *)
Module DebugPanel.
Import Js Models.

(** The badge of the "Integrity" row. *)
Inductive Badge : Type := LowConfidence | Grounded.

Definition badge_text (b : Badge) : string :=
  match b with
  | LowConfidence => "Low Confidence"
  | Grounded => "Grounded"
  end.

(** The panel for a response: the badge, the line of flags (when shown),
    the metadata whose fields fill the metric rows, and the sources listed
    under "Context Sources" (when the section is shown). *)
Record PanelView : Type := {
  integrity : Badge;
  flags_line : option string;
  metrics : MetadataResponse;
  context_sources : option (list SourceResponse)
}.

(** [None] is the idle panel ("System idle. Awaiting query..."). *)
Definition DebugPanel (lastResponse : option QueryResponse) : option PanelView :=
  match lastResponse with
  | None => None
  | Some response =>
      let flags := evaluator_flags (metadata response) in
      let srcs := sources response in
      let hasFlags := (0 <? List.length flags)%nat in
      Some {| integrity := if hasFlags then LowConfidence else Grounded;
              flags_line := if hasFlags
                            then Some ("Flags: " ++ join ", " flags)%string
                            else None;
              metrics := metadata response;
              context_sources := if (0 <? List.length srcs)%nat
                                 then Some (slice 0 (Some 3%Z) srcs) else None |}
  end.

End DebugPanel.

(** ** The retrieval core (backend), modelled from the specification

    The backend sources ([rag/retriever.py]) are not among the files
    embedded above.  The definitions of [Retriever] follow the wording of
    the specification, stage by stage.  Scores are rationals; the one place
    where a square root enters (the standard deviation) is decided exactly
    on rationals and related to the real-number formula in Part II. *)

(** Stable sorting, as the pipeline's "order by score" steps need it. *)
Module Ranking.
Section StableSort.
Context {A : Type}.

(** [before a b = true]: an element [a] that came earlier may stay in
    front of [b]. *)
Variable before : A -> A -> bool.

Fixpoint insert (a : A) (l : list A) : list A :=
  match l with
  | [] => [a]
  | b :: r => if before a b then a :: l else b :: insert a r
  end.

(** Insertion sort from the right: elements that compare equal keep their
    original order. *)
Fixpoint stable_sort (l : list A) : list A :=
  match l with
  | [] => []
  | a :: r => insert a (stable_sort r)
  end.

End StableSort.
End Ranking.

Module Retriever.
Import Ranking.

Definition chunk_id : Type := string.

(** Modelled from the spec: a Passage of the corpus (section 3), reduced to
    what the retrieval stages read: the source document's path and the text
    handed to the reranker. *)
Record Passage : Type := {
  passage_source : string;
  passage_text : string
}.

(** Modelled from the spec: the fixed configuration values of section 4.3
    (rank constant, rerank depth M, final top-k, tier boost and the
    authoritative path prefixes, the threshold's floor, and the static
    threshold of the fallback path). *)
Record Config : Type := {
  rank_constant : Q;
  rerank_depth : nat;
  top_k : nat;
  tier_boost : Q;
  authoritative_prefixes : list string;
  floor_constant : Q;
  static_threshold : Q
}.

(** Modelled from the spec: a RankedCandidate (section 3): the chunk id, the
    passage it refers to, its best rank in the input lists (the fusion
    tie-break), and the score of the latest stage. *)
Record Candidate : Type := {
  cand_id : chunk_id;
  cand_passage : Passage;
  best_rank : nat;
  score : Q
}.

Definition set_score (c : Candidate) (s : Q) : Candidate :=
  {| cand_id := cand_id c; cand_passage := cand_passage c;
     best_rank := best_rank c; score := s |}.

Definition Qlt_bool (x y : Q) : bool := negb (Qle_bool y x).

(** *** Step 2: rank fusion *)

(** The 1-indexed rank of [c] in a ranked list ([from] is the rank of the
    head); [None] when the list does not contain it. *)
Fixpoint rank_from (from : nat) (c : chunk_id) (l : list chunk_id) : option nat :=
  match l with
  | [] => None
  | x :: r => if (x =? c)%string then Some from else rank_from (S from) c r
  end.

Definition rank_in (c : chunk_id) (l : list chunk_id) : option nat := rank_from 1 c l.

(** Modelled from the spec: one list's term of the fused score,
    [1 / (rank_constant + rank)], and nothing for a list without the
    candidate. *)
Definition rrf_term (k : Q) (rank : option nat) : Q :=
  match rank with
  | Some r => 1 / (k + inject_Z (Z.of_nat r))
  | None => 0
  end.

(** Modelled from the spec: "each candidate's fused score is the sum, over
    every list in which it appears, of 1 / (rank_constant + rank)". *)
Definition fused_score (k : Q) (dense lexical : list chunk_id) (c : chunk_id) : Q :=
  rrf_term k (rank_in c dense) + rrf_term k (rank_in c lexical).

Definition min_rank (a b : option nat) : nat :=
  match a, b with
  | Some x, Some y => Nat.min x y
  | Some x, None => x
  | None, Some y => y
  | None, None => 0
  end.

(** The ids of a list in order of first appearance. *)
Fixpoint first_ids (seen l : list chunk_id) : list chunk_id :=
  match l with
  | [] => []
  | c :: r =>
      if existsb (String.eqb c) seen then first_ids seen r
      else c :: first_ids (c :: seen) r
  end.

(** Modelled from the spec: "ties in fused score break by the candidate's
    best individual rank across lists, then by stable original insertion
    order". *)
Definition fused_before (a b : Candidate) : bool :=
  Qlt_bool (score b) (score a)
  || (Qeq_bool (score a) (score b) && (best_rank a <=? best_rank b)%nat).

(** Modelled from the spec: step 2 of section 4.3.  The candidates are the
    ids of the dense list, then those of the lexical list, each once. *)
Definition fuse (cfg : Config) (corpus : chunk_id -> Passage)
    (dense lexical : list chunk_id) : list Candidate :=
  stable_sort fused_before
    (map (fun c =>
            {| cand_id := c;
               cand_passage := corpus c;
               best_rank := min_rank (rank_in c dense) (rank_in c lexical);
               score := fused_score (rank_constant cfg) dense lexical c |})
         (first_ids [] (dense ++ lexical))).

(** *** Step 3: source reliability tiering *)

Definition is_authoritative (cfg : Config) (path : string) : bool :=
  existsb (fun p => String.prefix p path) (authoritative_prefixes cfg).

(** Modelled from the spec: "authoritative categories receive a fixed
    multiplicative boost; all other categories receive no boost (1.0)". *)
Definition boost (cfg : Config) (path : string) : Q :=
  if is_authoritative cfg path then tier_boost cfg else 1.

Definition apply_tiering (cfg : Config) (cs : list Candidate) : list Candidate :=
  map (fun c => set_score c (score c * boost cfg (passage_source (cand_passage c)))) cs.

(** *** Step 4: deduplication *)

Definition score_before (a b : Candidate) : bool := Qle_bool (score b) (score a).

Fixpoint first_by_id (seen : list chunk_id) (cs : list Candidate) : list Candidate :=
  match cs with
  | [] => []
  | c :: r =>
      if existsb (String.eqb (cand_id c)) seen then first_by_id seen r
      else c :: first_by_id (cand_id c :: seen) r
  end.

(** Modelled from the spec: "deduplicated by chunk_id, keeping the
    highest-scored occurrence": order by score, highest first, and keep the
    first occurrence of each id. *)
Definition dedup (cs : list Candidate) : list Candidate :=
  first_by_id [] (stable_sort score_before cs).

(** *** Step 5: reranking *)

(** Modelled from the spec: the Reranker interface of section 6,
    [score(query, passage_text)]. *)
Definition Reranker : Type := string -> string -> Q.

(** Modelled from the spec: the candidates get their rerank score and the
    "final ordering is by rerank score descending". *)
Definition rerank (r : Reranker) (query : string) (cs : list Candidate) : list Candidate :=
  stable_sort score_before
    (map (fun c => set_score c (r query (passage_text (cand_passage c)))) cs).

(** *** Step 6: dynamic thresholding *)

Definition Qsum (xs : list Q) : Q := fold_right Qplus 0 xs.

Definition count (xs : list Q) : Q := inject_Z (Z.of_nat (List.length xs)).

Definition mean (xs : list Q) : Q := Qsum xs / count xs.

(** The variance of the whole set (the square of its standard deviation). *)
Definition variance (xs : list Q) : Q :=
  Qsum (map (fun x => (x - mean xs) * (x - mean xs)) xs) / count xs.

(** [x < mean - standard_deviation], decided without the square root: the
    deviation is the non-negative root of the variance, so it is below
    [mean - x] exactly when [mean - x] is positive and its square exceeds
    the variance. *)
Definition below_mean_minus_std (xs : list Q) (x : Q) : bool :=
  Qlt_bool 0 (mean xs - x)
  && Qlt_bool (variance xs) ((mean xs - x) * (mean xs - x)).

(** [x < max(mean - standard_deviation, floor)] *)
Definition below_threshold (floor : Q) (xs : list Q) (x : Q) : bool :=
  below_mean_minus_std xs x || Qlt_bool x floor.

(** Modelled from the spec: "drop any candidate whose score falls below
    max(mean - standard_deviation, floor_constant)", mean and deviation
    taken over the scores of the reranked candidates. *)
Definition dynamic_threshold (cfg : Config) (cs : list Candidate) : list Candidate :=
  filter (fun c => negb (below_threshold (floor_constant cfg) (map score cs) (score c))) cs.

(** Modelled from the spec: the fallback's "coarser static score
    threshold". *)
Definition static_filter (cfg : Config) (cs : list Candidate) : list Candidate :=
  filter (fun c => negb (Qlt_bool (score c) (static_threshold cfg))) cs.

(** *** Steps 2 to 7 *)

(** The result of an index call: [None] when the call failed. *)
Definition hits (r : option (list chunk_id)) : list chunk_id :=
  match r with
  | Some l => l
  | None => []
  end.

(** Modelled from the spec: the Hybrid Retriever of section 4.3 after the
    two index calls have been joined.  A failed index call contributes no
    candidates; without a reranker the tiered order is returned under the
    static threshold; the result is capped at the final top-k.  The
    performance bypass of the spec changes no result and has no counterpart
    here. *)
Definition retrieve (cfg : Config) (corpus : chunk_id -> Passage)
    (reranker : option Reranker) (query : string)
    (dense lexical : option (list chunk_id)) : list Candidate :=
  let fused := fuse cfg corpus (hits dense) (hits lexical) in
  let tiered := dedup (apply_tiering cfg fused) in
  match reranker with
  | Some r =>
      firstn (top_k cfg)
        (dynamic_threshold cfg (rerank r query (firstn (rerank_depth cfg) tiered)))
  | None => firstn (top_k cfg) (static_filter cfg tiered)
  end.

(** The formula of step 6 over the reals, as the specification writes it. *)
Definition Rsum (xs : list R) : R := fold_right Rplus 0%R xs.

Definition mean_R (xs : list R) : R := (Rsum xs / INR (List.length xs))%R.

Definition std_R (xs : list R) : R :=
  sqrt (Rsum (map (fun x => ((x - mean_R xs) * (x - mean_R xs))%R) xs)
        / INR (List.length xs)).

Definition threshold_R (floor : R) (xs : list R) : R :=
  Rmax (mean_R xs - std_R xs) floor.

End Retriever.

(** ** The browser's storage and JSON, as the components use them *)
Module Browser.

(** [localStorage]: the string stored under each key, if any. *)
Definition Storage : Type := string -> option string.

Definition getItem (key : string) (store : Storage) : option string := store key.

Definition setItem (key value : string) (store : Storage) : Storage :=
  fun k => if (k =? key)%string then Some value else store k.

Definition removeItem (key : string) (store : Storage) : Storage :=
  fun k => if (k =? key)%string then None else store k.

(** [JSON.stringify] and [JSON.parse] at one type of values; [parse]
    gives [None] where [JSON.parse] throws a SyntaxError. *)
Record Json (A : Type) : Type := {
  stringify : A -> string;
  parse : string -> option A
}.
Arguments stringify {A} _ _.
Arguments parse {A} _ _.

(** [if (saved)] for the result of [getItem]: [null] and the empty string
    are falsy. *)
Definition saved_value (v : option string) : option string :=
  match v with
  | Some s => if Js.truthy_string s then Some s else None
  | None => None
  end.

(** A continuation byte of a UTF-8 sequence. *)
Definition is_continuation (c : ascii) : bool :=
  let n := nat_of_ascii c in (128 <=? n)%nat && (n <? 192)%nat.

(** The first byte of a four-byte sequence: a character beyond U+FFFF,
    which a JavaScript string holds as a surrogate pair. *)
Definition starts_pair (c : ascii) : bool := (240 <=? nat_of_ascii c)%nat.

(** The UTF-16 code units a byte accounts for: those of its character
    for a first byte, none for a continuation byte. *)
Definition code_units (c : ascii) : nat :=
  if is_continuation c then 0%nat else if starts_pair c then 2%nat else 1%nat.

(** [str.length]: the number of UTF-16 code units. *)
Definition utf16_length (s : string) : nat :=
  list_sum (map code_units (list_ascii_of_string s)).

(** U+FFFD, which stands for an unpaired surrogate in UTF-8. *)
Definition replacement_character : list ascii := Js.utf8 [239; 191; 189]%nat.

(** The characters of the first [n] code units.  A surrogate pair that
    the cut would split leaves its first half, an unpaired surrogate. *)
Fixpoint take_units (n : nat) (l : list ascii) : list ascii :=
  match l with
  | [] => []
  | c :: r =>
      if is_continuation c then c :: take_units n r
      else if starts_pair c then
        match n with
        | S (S k) => c :: take_units k r
        | S O => replacement_character
        | O => []
        end
      else
        match n with
        | S k => c :: take_units k r
        | O => []
        end
  end.

(** [str.slice(0, end)] for an [end] that is not negative: the first
    [end] UTF-16 code units of [str], or all of it. *)
Definition string_slice (end_ : nat) (s : string) : string :=
  string_of_list_ascii (take_units end_ (list_ascii_of_string s)).

End Browser.

(** ** The effects of [Chat.tsx] that load and persist the messages *)
Module ChatEffects.
Import Js Models Chat Browser.

(** The key [`nexus_msgs_${conversationId}`]. *)
Definition messages_key (conversationId : string) : string :=
  ("nexus_msgs_" ++ conversationId)%string.

(** The effect on mount / conversation change: nothing without a
    conversation id; otherwise the saved messages, or none. *)
Definition load_messages (json : Json (list Message)) (conversationId : string)
    (store : Storage) (st : ChatState) : Completion ChatState :=
  if negb (truthy_string conversationId) then Return st
  else
    match saved_value (getItem (messages_key conversationId) store) with
    | Some saved =>
        match parse json saved with
        | Some loaded => Return (setMessages (fun _ => loaded) st)
        | None => Throw (SyntaxError "Unexpected token in JSON")
        end
    | None => Return (setMessages (fun _ => []) st)
    end.

(** The effect on [messages, conversationId]: nothing without a
    conversation id or without messages. *)
Definition persist_messages (json : Json (list Message)) (conversationId : string)
    (st : ChatState) (store : Storage) : Storage :=
  if negb (truthy_string conversationId)
     || (List.length (messages st) =? 0)%nat
  then store
  else setItem (messages_key conversationId) (stringify json (messages st)) store.

(** The user types [text] ([onChange]) and sends it. *)
Definition type_and_send (askApi : QueryRequest -> Completion QueryResponse)
    (now1 now2 : Z) (text : string) (st : ChatState) : SendRun :=
  handleSend askApi now1 now2 (setInputValue text st).

End ChatEffects.

(** ** [App.tsx] *)
Module App.
Import Js Models Chat Browser ChatEffects.

Record ConversationMetadata : Type := {
  conv_id : string;
  title : string;
  lastUpdated : Z
}.

(** The [useState] cells of [App]. *)
Record AppState : Type := {
  lastResponse : option QueryResponse;
  conversations : list ConversationMetadata;
  currentConvId : option string
}.

Definition setLastResponse (r : QueryResponse) (st : AppState) : AppState :=
  {| lastResponse := Some r;
     conversations := conversations st;
     currentConvId := currentConvId st |}.

Definition setConversations
    (f : list ConversationMetadata -> list ConversationMetadata) (st : AppState)
  : AppState :=
  {| lastResponse := lastResponse st;
     conversations := f (conversations st);
     currentConvId := currentConvId st |}.

Definition setCurrentConvId (c : option string) (st : AppState) : AppState :=
  {| lastResponse := lastResponse st;
     conversations := conversations st;
     currentConvId := c |}.

Definition conversations_key : string := "nexus_conversations".

(** [list[0].id] when the list is not empty. *)
Definition first_id (l : list ConversationMetadata) : option string :=
  match l with
  | c :: _ => Some (conv_id c)
  | [] => None
  end.

(** [createNewChat()], called in the render whose state is [st]; [now1]
    and [now2] are its two readings of [Date.now()]. *)
Definition createNewChat (json : Json (list ConversationMetadata)) (now1 now2 : Z)
    (st : AppState) (store : Storage) : AppState * Storage :=
  let id := ("chat_" ++ string_of_Z now1)%string in
  let newConv := {| conv_id := id; title := "New Chat"; lastUpdated := now2 |} in
  (setCurrentConvId (Some id) (setConversations (fun prev => newConv :: prev) st),
   setItem conversations_key (stringify json (newConv :: conversations st)) store).

(** [updateTitle(id, text)] *)
Definition updateTitle (id text : string) (now : Z) (st : AppState) : AppState :=
  setConversations
    (fun prev =>
       map (fun c =>
              if (conv_id c =? id)%string
              then {| conv_id := conv_id c;
                      title := (string_slice 30 text ++ "...")%string;
                      lastUpdated := now |}
              else c) prev) st.

(** [deleteChat(e, id)], called in the render whose state is [st]. *)
Definition deleteChat (id : string) (st : AppState) (store : Storage)
  : AppState * Storage :=
  let updated := filter (fun c => negb (conv_id c =? id)%string) (conversations st) in
  let st1 := setConversations (fun _ => updated) st in
  let store1 := removeItem (messages_key id) store in
  let st2 :=
    match currentConvId st with
    | Some current =>
        if (current =? id)%string then setCurrentConvId (first_id updated) st1
        else st1
    | None => st1
    end in
  (st2, store1).

(** The effect on [conversations]: a non-empty list is saved. *)
Definition persist_conversations (json : Json (list ConversationMetadata))
    (st : AppState) (store : Storage) : Storage :=
  if (0 <? List.length (conversations st))%nat
  then setItem conversations_key (stringify json (conversations st)) store
  else store.

(** The effect on mount: the saved list and its first conversation, or a
    new chat when nothing is saved. *)
Definition mount (json : Json (list ConversationMetadata)) (now1 now2 : Z)
    (st : AppState) (store : Storage) : Completion (AppState * Storage) :=
  match saved_value (getItem conversations_key store) with
  | Some saved =>
      match parse json saved with
      | Some saved_list =>
          let st1 := setConversations (fun _ => saved_list) st in
          Return (if (0 <? List.length saved_list)%nat
                  then setCurrentConvId (first_id saved_list) st1 else st1,
                  store)
      | None => Throw (SyntaxError "Unexpected token in JSON")
      end
  | None => Return (createNewChat json now1 now2 st store)
  end.

(** The click on a listed conversation: [setCurrentConvId(conv.id)] for
    the conversation at position [i] of the list. *)
Definition select (i : nat) (st : AppState) : AppState :=
  match nth_error (conversations st) i with
  | Some conv => setCurrentConvId (Some (conv_id conv)) st
  | None => st
  end.

(** The props [App] passes to [Chat]. *)
Definition conversationId (st : AppState) : string :=
  match currentConvId st with
  | Some c => if truthy_string c then c else EmptyString
  | None => EmptyString
  end.

Definition onMetadataUpdate (res : QueryResponse) (st : AppState) : AppState :=
  setLastResponse res st.

Definition onFirstMessage (text : string) (now : Z) (st : AppState) : AppState :=
  match currentConvId st with
  | Some c => if truthy_string c then updateTitle c text now st else st
  | None => st
  end.

(** The callbacks of one [handleSend] run, applied to the state of [App]. *)
Definition after_send (now : Z) (run : SendRun) (st : AppState) : AppState :=
  let st1 := match first_message run with
             | Some text => onFirstMessage text now st
             | None => st
             end in
  match metadata_update run with
  | Some res => onMetadataUpdate res st1
  | None => st1
  end.

(** What the user can do in the sidebar. *)
Inductive Action : Type :=
| NewChat (now1 now2 : Z)
| DeleteChat (id : string)
| Select (i : nat)
| FirstMessage (text : string) (now : Z).

(** One action and the effect on [conversations] that follows it. *)
Definition act (json : Json (list ConversationMetadata)) (a : Action)
    (s : AppState * Storage) : AppState * Storage :=
  let '(st, store) := s in
  let '(st', store') :=
    match a with
    | NewChat now1 now2 => createNewChat json now1 now2 st store
    | DeleteChat id => deleteChat id st store
    | Select i => (select i st, store)
    | FirstMessage text now => (onFirstMessage text now st, store)
    end in
  (st', persist_conversations json st' store').

Definition run_actions (json : Json (list ConversationMetadata))
    (actions : list Action) (s : AppState * Storage) : AppState * Storage :=
  fold_left (fun s a => act json a s) actions s.

(** The selected conversation, if any, is one of the list. *)
Definition selection_listed (st : AppState) : Prop :=
  match currentConvId st with
  | Some c => In c (map conv_id (conversations st))
  | None => True
  end.

End App.

(* ===================================================================== *)
(** * Part II.  Properties                                                *)
(* ===================================================================== *)

(** ** Strings *)
Module StringFacts.

Lemma append_assoc (a b c : string) : ((a ++ b) ++ c = a ++ (b ++ c))%string.
Proof. induction a as [|x a IH]; simpl; [reflexivity | now rewrite IH]. Qed.

Lemma append_nil_r (a : string) : (a ++ "" = a)%string.
Proof. induction a as [|x a IH]; simpl; [reflexivity | now rewrite IH]. Qed.

Lemma append_length (a b : string) :
  String.length (a ++ b) = (String.length a + String.length b)%nat.
Proof. induction a as [|x a IH]; simpl; [reflexivity | now rewrite IH]. Qed.

End StringFacts.

(** ** [formatCitations] *)
Module FormatCitationsFacts.
Import Js Text Chat StringFacts.

Lemma formatCitations_kept c r :
  match_cite (String c r) = None ->
  formatCitations (String c r) = String c (formatCitations r).
Proof.
  intros H. simp formatCitations.
  generalize (inspect (match_cite (String c r))).
  intros [[[g rest]|] E]; simp formatCitations.
  - congruence.
  - reflexivity.
Qed.

Lemma formatCitations_replaced c r g rest :
  match_cite (String c r) = Some (g, rest) ->
  formatCitations (String c r)
  = ("<cite>" ++ g ++ "</cite>" ++ formatCitations rest)%string.
Proof.
  intros H. simp formatCitations.
  generalize (inspect (match_cite (String c r))).
  intros [[[g' rest']|] E]; simp formatCitations.
  - rewrite H in E. inversion E; subst. reflexivity.
  - congruence.
Qed.

Lemma span_digits_spec s ds rest :
  span_digits s = (ds, rest) ->
  s = (ds ++ rest)%string
  /\ all_chars is_digit ds = true /\ first_sat is_digit rest = false.
Proof.
  revert ds rest. induction s as [|c r IH]; intros ds rest H; simpl in H.
  - inversion H; subst. repeat split.
  - destruct (is_digit c) eqn:Hc.
    + destruct (span_digits r) as [ds' rest'] eqn:E. inversion H; subst.
      destruct (IH _ _ eq_refl) as (-> & Hall & Hfirst).
      simpl. rewrite Hc. repeat split; assumption.
    + inversion H; subst. simpl. repeat split. exact Hc.
Qed.

Lemma span_digits_app ds t :
  all_chars is_digit ds = true -> first_sat is_digit t = false ->
  span_digits (ds ++ t) = (ds, t).
Proof.
  induction ds as [|d ds IH]; simpl; intros Hall Hfirst.
  - destruct t as [|c r]; [reflexivity|]. simpl in *. now rewrite Hfirst.
  - apply andb_prop in Hall as [Hd Hall]. rewrite Hd, IH by assumption. reflexivity.
Qed.

Lemma match_cite_other c r : (c =? "[")%char = false -> match_cite (String c r) = None.
Proof. intros H. simpl. now rewrite H. Qed.

Lemma digit_not_open c : is_digit c = true -> (c =? "[")%char = false.
Proof.
  intros H. destruct (Ascii.eqb_spec c "["%char) as [->|]; [discriminate H | reflexivity].
Qed.

(** A match is made of an opening bracket, the digits of group 1, and a
    closing bracket. *)
Lemma match_cite_spec s g rest :
  match_cite s = Some (g, rest) <->
  s = ("[" ++ g ++ "]" ++ rest)%string /\ g <> EmptyString /\ all_chars is_digit g = true.
Proof.
  split.
  - destruct s as [|c r]; [discriminate|]. simpl.
    destruct (Ascii.eqb_spec c "["%char) as [->|]; [|discriminate].
    destruct (span_digits r) as [ds rest'] eqn:E.
    apply span_digits_spec in E as (-> & Hall & _).
    destruct ds as [|d ds]; [discriminate|].
    destruct rest' as [|c' rest'']; [discriminate|].
    destruct (Ascii.eqb_spec c' "]"%char) as [->|]; [|discriminate].
    intros H; inversion H; subst. repeat split; [discriminate | exact Hall].
  - intros (-> & Hne & Hall). simpl.
    rewrite span_digits_app by (assumption || reflexivity).
    destruct g as [|d ds]; [contradiction|]. reflexivity.
Qed.

Lemma formatCitations_digits ds t :
  all_chars is_digit ds = true ->
  formatCitations (ds ++ t) = (ds ++ formatCitations t)%string.
Proof.
  induction ds as [|d ds IH]; simpl; intros Hall; [reflexivity|].
  apply andb_prop in Hall as [Hd Hall].
  rewrite formatCitations_kept by (apply match_cite_other, digit_not_open, Hd).
  now rewrite IH.
Qed.

(** The output starts with the input's first character or with the
    [<] of a replacement. *)
Lemma formatCitations_first P t :
  P "<"%char = false -> first_sat P t = false ->
  first_sat P (formatCitations t) = false.
Proof.
  intros Hlt Ht. destruct t as [|c r]; [reflexivity|].
  destruct (match_cite (String c r)) as [[g rest]|] eqn:E.
  - rewrite (formatCitations_replaced _ _ _ _ E). exact Hlt.
  - rewrite (formatCitations_kept _ _ E). exact Ht.
Qed.

(** An opening bracket that starts no citation in the input starts none in
    the output either. *)
Lemma match_cite_formatted_tail r :
  match_cite (String "[" r) = None ->
  match_cite (String "[" (formatCitations r)) = None.
Proof.
  simpl. destruct (span_digits r) as [ds rest] eqn:E.
  apply span_digits_spec in E as (-> & Hall & Hfirst).
  rewrite formatCitations_digits by assumption.
  rewrite span_digits_app; [|assumption|now apply formatCitations_first].
  destruct ds as [|d ds]; [reflexivity|].
  intros H.
  assert (Hclose : first_sat (fun c => (c =? "]")%char) rest = false).
  { destruct rest as [|c' rest']; [reflexivity|]. simpl.
    destruct (c' =? "]")%char; [discriminate H | reflexivity]. }
  apply (formatCitations_first _ _ eq_refl) in Hclose.
  destruct (formatCitations rest) as [|c' rest']; [reflexivity|].
  simpl in Hclose. now rewrite Hclose.
Qed.

Lemma has_citation_skip pre t :
  all_chars (fun c => negb (c =? "[")%char) pre = true ->
  has_citation (pre ++ t) = has_citation t.
Proof.
  induction pre as [|c pre IH]; intros H; [reflexivity|].
  simpl in H. apply andb_prop in H as [Hc Hpre].
  apply negb_true_iff in Hc.
  change (String c pre ++ t)%string with (String c (pre ++ t)).
  cbn [has_citation]. rewrite match_cite_other by exact Hc. now apply IH.
Qed.

Lemma digits_no_open ds :
  all_chars is_digit ds = true ->
  all_chars (fun c => negb (c =? "[")%char) ds = true.
Proof.
  induction ds as [|d ds IH]; simpl; [reflexivity|]. intros H.
  apply andb_prop in H as [Hd H]. rewrite (digit_not_open _ Hd). simpl. now apply IH.
Qed.

(** [has_citation] is the search for a bracketed run of digits. *)
Lemma has_citation_spec s :
  has_citation s = true <->
  exists pre g rest,
    s = (pre ++ "[" ++ g ++ "]" ++ rest)%string
    /\ g <> EmptyString /\ all_chars is_digit g = true.
Proof.
  split.
  - induction s as [|c r IH]; cbn [has_citation].
    + simpl. discriminate.
    + destruct (match_cite (String c r)) as [[g rest]|] eqn:E.
      * intros _. apply match_cite_spec in E as (E & Hne & Hall).
        exists EmptyString, g, rest. simpl. auto.
      * intros H. destruct (IH H) as (pre & g & rest & -> & Hne & Hall).
        exists (String c pre), g, rest. simpl. auto.
  - intros (pre & g & rest & -> & Hne & Hall).
    induction pre as [|c pre IH].
    + assert (E : match_cite ("[" ++ g ++ "]" ++ rest)%string = Some (g, rest))
        by (apply match_cite_spec; auto).
      simpl append in *. cbn [has_citation]. now rewrite E.
    + change (String c pre ++ "[" ++ g ++ "]" ++ rest)%string
        with (String c (pre ++ "[" ++ g ++ "]" ++ rest)).
      cbn [has_citation]. rewrite IH.
      now destruct (match_cite _).
Qed.

Lemma formatCitations_no_citation s : has_citation (formatCitations s) = false.
Proof.
  remember (String.length s) as n eqn:Hn. revert s Hn.
  induction n as [n IH] using lt_wf_ind. intros s Hn.
  destruct s as [|c r]; [reflexivity|].
  destruct (match_cite (String c r)) as [[g rest]|] eqn:E.
  - rewrite (formatCitations_replaced _ _ _ _ E).
    rewrite (has_citation_skip "<cite>") by reflexivity.
    rewrite has_citation_skip
      by (apply digits_no_open; apply match_cite_spec in E; tauto).
    rewrite (has_citation_skip "</cite>") by reflexivity.
    apply match_cite_shorter in E. eapply IH; [|reflexivity]. lia.
  - rewrite (formatCitations_kept _ _ E). cbn [has_citation].
    assert (Hm : match_cite (String c (formatCitations r)) = None).
    { destruct (c =? "[")%char eqn:Hc.
      - apply Ascii.eqb_eq in Hc. subst c. now apply match_cite_formatted_tail.
      - now apply match_cite_other. }
    rewrite Hm. eapply IH; [|reflexivity]. simpl in Hn. lia.
Qed.

Lemma formatCitations_fixed s : has_citation s = false -> formatCitations s = s.
Proof.
  induction s as [|c r IH]; intros H; [reflexivity|].
  cbn [has_citation] in H.
  destruct (match_cite (String c r)) eqn:E; [discriminate|].
  rewrite (formatCitations_kept _ _ E), IH by assumption. reflexivity.
Qed.

(** C10.  [formatCitations] is idempotent: applying it to its own output
    changes nothing, because the output contains no bracketed run of
    digits (the pattern [/\[(\d+)\]/] matches nowhere in it). *)
Theorem formatCitations_idempotent (s : string) :
  formatCitations (formatCitations s) = formatCitations s
  /\ has_citation (formatCitations s) = false.
Proof.
  pose proof (formatCitations_no_citation s) as Hfree.
  split; [|exact Hfree].
  now apply formatCitations_fixed.
Qed.

End FormatCitationsFacts.

(** ** Arrays *)
Module ArrayFacts.
Import Js.




(** An element is read exactly at the integers from 0 up to the length. *)
Lemma array_get_Some {A : Type} (arr : list A) (i : option Z) (x : A) :
  array_get arr i = Some x <->
  exists z, i = Some z /\ (0 <= z < Z.of_nat (List.length arr))%Z
            /\ nth_error arr (Z.to_nat z) = Some x.
Proof.
  unfold array_get. split.
  - destruct i as [z|]; [|discriminate].
    destruct (Z.leb_spec 0 z) as [Hz|]; [|discriminate].
    intros H. exists z. repeat split; try assumption.
    assert (Z.to_nat z < List.length arr)%nat
      by (apply nth_error_Some; congruence).
    lia.
  - intros (z & -> & [Hz _] & H).
    destruct (Z.leb_spec 0 z); [exact H | lia].
Qed.

Lemma array_get_None {A : Type} (arr : list A) (i : option Z) :
  array_get arr i = None <->
  i = None \/ exists z, i = Some z /\ (z < 0 \/ Z.of_nat (List.length arr) <= z)%Z.
Proof.
  unfold array_get. split.
  - destruct i as [z|]; [|auto].
    destruct (Z.leb_spec 0 z) as [Hz|Hz].
    + intros H. apply nth_error_None in H. right. exists z. split; [reflexivity|lia].
    + intros _. right. exists z. split; [reflexivity|lia].
  - intros [->|(z & -> & Hz)]; [reflexivity|].
    destruct (Z.leb_spec 0 z); [|reflexivity].
    apply nth_error_None. lia.
Qed.

End ArrayFacts.

(** ** The [Citation] component *)
Module CitationFacts.
Import Js Models Chat ArrayFacts.

(** The source of a citation is looked up at [parseInt(index) - 1]. *)
Lemma cited_source_Some index sources source :
  cited_source index sources = Some source <->
  exists arr idx,
    sources = Some arr /\ parseInt index = Some idx
    /\ (1 <= idx <= Z.of_nat (List.length arr))%Z
    /\ nth_error arr (Z.to_nat (idx - 1)) = Some source.
Proof.
  unfold cited_source. split.
  - destruct sources as [arr|]; [|discriminate].
    intros H. apply array_get_Some in H as (z & Hz & Hrange & Hnth).
    destruct (parseInt index) as [idx|]; [|discriminate].
    simpl in Hz. inversion Hz; subst z.
    exists arr, idx. repeat split; try lia. exact Hnth.
  - intros (arr & idx & -> & Hidx & Hrange & Hnth). rewrite Hidx.
    apply array_get_Some. exists (idx - 1)%Z. simpl. repeat split; try lia. exact Hnth.
Qed.

Lemma cited_source_None index sources :
  cited_source index sources = None <->
  sources = None
  \/ parseInt index = None
  \/ exists arr idx,
       sources = Some arr /\ parseInt index = Some idx
       /\ (idx < 1 \/ Z.of_nat (List.length arr) < idx)%Z.
Proof.
  unfold cited_source. split.
  - destruct sources as [arr|]; [|auto].
    intros H. apply array_get_None in H as [H|(z & Hz & Hrange)].
    + destruct (parseInt index); [discriminate | auto].
    + destruct (parseInt index) as [idx|]; [|discriminate].
      simpl in Hz. inversion Hz; subst z.
      right; right. exists arr, idx. repeat split; lia.
  - intros [->|[H|(arr & idx & -> & Hidx & Hrange)]]; [reflexivity| |].
    + destruct sources; [|reflexivity]. rewrite H. reflexivity.
    + rewrite Hidx. apply array_get_None. right. exists (idx - 1)%Z.
      split; [reflexivity | lia].
Qed.

(** C9.  For every index string and every sources list, absent or not,
    [Citation] renders without throwing: the properties of the source are
    read only when [sources[idx - 1]] exists.  When the sources are absent,
    the index does not parse, or it lies outside [1, length], the literal
    bracketed index is rendered; otherwise the element at [idx - 1] is
    shown. *)
Theorem Citation_never_fails (show : number -> string) (index : string)
    (sources : option (list SourceResponse)) (st : CitationState) :
  (exists view, Citation show index sources st = Return view)
  /\ ((sources = None
       \/ parseInt index = None
       \/ exists arr idx,
            sources = Some arr /\ parseInt index = Some idx
            /\ (idx < 1 \/ Z.of_nat (List.length arr) < idx)%Z) ->
      Citation show index sources st = Return (PlainCitation (bracketed index)))
  /\ (forall arr idx,
        sources = Some arr -> parseInt index = Some idx ->
        (1 <= idx <= Z.of_nat (List.length arr))%Z ->
        exists source,
          nth_error arr (Z.to_nat (idx - 1)) = Some source
          /\ Citation show index sources st
             = Return (ClickableCitation (isHovered st || isClicked st)
                         (citation_title show source)
                         (if isHovered st || isClicked st
                          then "?" else bracketed index))).
Proof.
  assert (Hshown : forall source,
             cited_source index sources = Some source ->
             Citation show index sources st
             = Return (ClickableCitation (isHovered st || isClicked st)
                         (citation_title show source)
                         (if isHovered st || isClicked st
                          then "?" else bracketed index))).
  { intros source H. unfold Citation. rewrite H. reflexivity. }
  assert (Hplain : cited_source index sources = None ->
             Citation show index sources st
             = Return (PlainCitation (bracketed index))).
  { intros H. unfold Citation. rewrite H. reflexivity. }
  split; [|split].
  - destruct (cited_source index sources) as [source|] eqn:E.
    + eexists. apply Hshown. reflexivity.
    + eexists. apply Hplain. reflexivity.
  - intros H. apply Hplain, cited_source_None, H.
  - intros arr idx Hs Hidx Hrange.
    destruct (nth_error arr (Z.to_nat (idx - 1))) as [source|] eqn:Hnth.
    + exists source. split; [reflexivity|].
      apply Hshown, cited_source_Some. exists arr, idx. auto.
    + apply nth_error_None in Hnth. lia.
Qed.

Lemma Citation_never_fails_witness :
  let arr := [ {| document := "pricing.pdf"; section := None;
                  page := Some 2; relevance_score := Some (9 # 10) |} ] in
  parseInt "1" = Some 1%Z
  /\ exists source,
       nth_error arr 0 = Some source
       /\ Citation (fun _ => "n") "1" (Some arr)
            {| isHovered := false; isClicked := false |}
          = Return (ClickableCitation false (citation_title (fun _ => "n") source) "[1]").
Proof.
  intros arr. split; [reflexivity|].
  destruct (Citation_never_fails (fun _ => "n") "1" (Some arr)
              {| isHovered := false; isClicked := false |}) as (_ & _ & H).
  exact (H arr 1%Z eq_refl eq_refl ltac:(simpl; lia)).
Defined.

End CitationFacts.

(** ** [handleSend], [askApi] and the observability panel *)
Module ChatFacts.
Import Js Models Api Chat DebugPanel ArrayFacts.

Lemma handleSend_blocked askApi now1 now2 st :
  blocked st = true ->
  handleSend askApi now1 now2 st
  = {| state_after := st; request_sent := None;
       first_message := None; metadata_update := None |}.
Proof. unfold blocked, handleSend. intros ->. reflexivity. Qed.

(** A call that passes the guard sends [request_of st] and appends the
    user's message and then exactly one message of the assistant: the
    answer when [askApi] returns, the failure text when it throws. *)
Lemma handleSend_sent askApi now1 now2 st :
  blocked st = false ->
  let run := handleSend askApi now1 now2 st in
  request_sent run = Some (request_of st)
  /\ inputValue (state_after run) = EmptyString
  /\ isLoading (state_after run) = false
  /\ match askApi (request_of st) with
     | Return response =>
         messages (state_after run)
         = messages st ++ [user_message now1 (inputValue st);
                           answer_message now2 response]
         /\ metadata_update run = Some response
     | Throw _ =>
         messages (state_after run)
         = messages st ++ [user_message now1 (inputValue st);
                           failure_message now2]
         /\ metadata_update run = None
     end.
Proof.
  unfold blocked, handleSend. intros ->. cbv zeta.
  fold (request_of st).
  destruct (askApi (request_of st)) as [response|e]; simpl;
    rewrite <- app_assoc; simpl; auto.
Qed.



(** Eight displayed messages and a question: the window holds the last six. *)
Definition eight_messages : list Message :=
  map (fun n => user_message n "turn") [1; 2; 3; 4; 5; 6; 7; 8]%Z.

Definition asking (question : string) : ChatState :=
  {| messages := eight_messages; inputValue := question; isLoading := false |}.


(** C6.  The panel's badge is "Low Confidence" exactly when the metadata's
    list of evaluator flags is non-empty and "Grounded" otherwise.  The
    flags are display only: whatever they are, a response that [askApi]
    returns is appended to the messages with its answer, and the messages
    do not depend on the flags. *)
Theorem DebugPanel_integrity_badge (response : QueryResponse) :
  (exists view,
      DebugPanel (Some response) = Some view
      /\ (integrity view = LowConfidence
          <-> evaluator_flags (metadata response) <> [])
      /\ (integrity view = Grounded
          <-> evaluator_flags (metadata response) = [])
      /\ (flags_line view = None
          <-> evaluator_flags (metadata response) = []))
  /\ forall (now1 now2 : Z) (st : ChatState) (flags : list string),
       let run := handleSend (fun _ => Return response) now1 now2 st in
       let run' := handleSend (fun _ => Return (with_flags response flags)) now1 now2 st in
       messages (state_after run') = messages (state_after run)
       /\ (blocked st = false ->
           messages (state_after run)
           = messages st ++ [user_message now1 (inputValue st);
                             answer_message now2 response]
           /\ message_markdown (answer_message now2 response)
              = formatCitations (answer response)).
Proof.
  split.
  - eexists. split; [reflexivity|]. simpl.
    destruct (evaluator_flags (metadata response)) as [|flag flags]; simpl;
      repeat split; intros H; try reflexivity; try discriminate;
      try congruence.
  - intros now1 now2 st flags run run'.
    destruct (blocked st) eqn:Hb.
    + subst run run'. rewrite !handleSend_blocked by assumption.
      split; [reflexivity | discriminate].
    + pose proof (handleSend_sent (fun _ => Return response) now1 now2 st Hb)
        as (_ & _ & _ & Hrun & _).
      pose proof (handleSend_sent (fun _ => Return (with_flags response flags))
                    now1 now2 st Hb) as (_ & _ & _ & Hrun' & _).
      cbv zeta in Hrun, Hrun'. subst run run'.
      rewrite Hrun, Hrun'. split; [reflexivity|]. intros _. split; reflexivity.
Qed.

Definition flagged_metadata (flags : list string) : MetadataResponse :=
  {| model_used := "llama-3.1-8b-instant"; classification := "simple";
     tokens := {| input := 10; output := 5 |};
     latency_ms := 800; retrieval_latency_ms := 300;
     num_chunks_retrieved := 0; avg_similarity_score := 0;
     routing_score := 0; evaluator_flags := flags |}.

Definition flagged_response : QueryResponse :=
  {| answer := "See [1].";
     metadata := flagged_metadata ["no_context"];
     sources := [];
     conversation_id := "c" |}.

Lemma DebugPanel_integrity_badge_witness :
  blocked (asking "pricing?") = false
  /\ messages (state_after
       (handleSend (fun _ => Return flagged_response) 9 10 (asking "pricing?")))
     = eight_messages ++ [user_message 9 "pricing?";
                          answer_message 10 flagged_response]
  /\ message_markdown (answer_message 10 flagged_response)
     = formatCitations "See [1].".
Proof.
  split; [reflexivity|].
  destruct (DebugPanel_integrity_badge flagged_response) as [_ H].
  destruct (H 9%Z 10%Z (asking "pricing?") []) as [_ H'].
  exact (H' eq_refl).
Defined.

End ChatFacts.

(** ** [askApi] and the end of every request *)
Module ApiFacts.
Import Js Models Api Chat ChatFacts.



(** A server that answers 503 to every request. *)
Definition unavailable : Response :=
  {| status := 503; json := None; body := None |}.

Definition failing_platform : Platform :=
  {| API_BASE_URL := "";
     fetch := fun _ _ => Resolved unavailable;
     decode := string_of_list_byte |}.


End ApiFacts.

(** ** The streaming variant *)
Module StreamFacts.
Import Js Text Models Api StringFacts.

(** [askStreamApi] yields the decoded chunks of an ok response, in order. *)
Lemma askStreamApi_ok p request response reader :
  fetch p (API_BASE_URL p ++ "/query_stream") request = Resolved response ->
  ok response = true -> body response = Some reader ->
  yielded (askStreamApi p request) = map (decode p) (chunks reader)
  /\ finished (askStreamApi p request)
     = match ending reader with
       | StreamDone => Return tt
       | StreamFailed => Throw fetch_failed
       end.
Proof.
  unfold askStreamApi. intros -> -> ->. split; reflexivity.
Qed.

Definition any_request : QueryRequest :=
  {| question := "q"; request_conversation_id := None; history := None |}.

End StreamFacts.

(** ** Stable sorting *)
Module RankingFacts.
Import Ranking.

Section StableSortFacts.
Context {A : Type} (before : A -> A -> bool).

Lemma insert_permutation a l : Permutation (insert before a l) (a :: l).
Proof.
  induction l as [|b r IH]; simpl; [reflexivity|].
  destruct (before a b); [reflexivity|].
  rewrite IH. apply perm_swap.
Qed.

Lemma stable_sort_permutation l : Permutation (stable_sort before l) l.
Proof.
  induction l as [|a r IH]; simpl; [reflexivity|].
  rewrite insert_permutation. now apply perm_skip.
Qed.

(** The order is total and transitive. *)
Hypothesis before_total : forall a b, before a b = false -> before b a = true.
Hypothesis before_trans :
  forall a b c, before a b = true -> before b c = true -> before a c = true.

Lemma insert_sorted a l :
  StronglySorted (fun x y => before x y = true) l ->
  StronglySorted (fun x y => before x y = true) (insert before a l).
Proof.
  induction 1 as [|b r Hr IH Hb]; simpl.
  - constructor; constructor.
  - destruct (before a b) eqn:E.
    + constructor; [constructor; assumption|].
      constructor; [exact E|].
      eapply Forall_impl; [|exact Hb]. intros c Hc. now apply (before_trans a b c).
    + constructor; [exact IH|].
      apply Forall_forall. intros x Hx.
      apply (Permutation_in _ (insert_permutation a r)) in Hx.
      destruct Hx as [<-|Hx]; [now apply before_total|].
      revert x Hx. now apply Forall_forall.
Qed.

Lemma stable_sort_sorted l :
  StronglySorted (fun x y => before x y = true) (stable_sort before l).
Proof.
  induction l as [|a r IH]; simpl; [constructor | now apply insert_sorted].
Qed.

End StableSortFacts.

(** Sortedness survives the removal of elements. *)
Lemma sorted_filter {A : Type} (R : A -> A -> Prop) (f : A -> bool) l :
  StronglySorted R l -> StronglySorted R (filter f l).
Proof.
  induction 1 as [|a r Hr IH Ha]; simpl; [constructor|].
  destruct (f a); [|exact IH].
  constructor; [exact IH|].
  apply Forall_forall. intros x Hx. apply filter_In in Hx as [Hx _].
  revert x Hx. now apply Forall_forall.
Qed.

Lemma In_firstn {A : Type} (x : A) n l : In x (firstn n l) -> In x l.
Proof.
  revert n. induction l as [|a r IH]; intros [|n]; simpl; try tauto.
  intros [->|H]; [now left | right; now apply (IH n)].
Qed.

Lemma sorted_firstn {A : Type} (R : A -> A -> Prop) n l :
  StronglySorted R l -> StronglySorted R (firstn n l).
Proof.
  intros H. revert n. induction H as [|a r Hr IH Ha]; intros [|n]; simpl;
    try constructor.
  - apply IH.
  - apply Forall_forall. intros x Hx. apply In_firstn in Hx.
    revert x Hx. now apply Forall_forall.
Qed.

Lemma NoDup_map_filter {A B : Type} (g : A -> B) (f : A -> bool) l :
  NoDup (map g l) -> NoDup (map g (filter f l)).
Proof.
  induction l as [|a r IH]; simpl; [auto|]. intros H.
  inversion H as [|x xs Hnotin Hnodup]; subst.
  destruct (f a); [|now apply IH].
  simpl. constructor; [|now apply IH].
  intros Hin. apply Hnotin. apply in_map_iff in Hin as (y & Hy & Hin).
  apply filter_In in Hin as [Hin _]. apply in_map_iff. eauto.
Qed.

Lemma NoDup_map_firstn {A B : Type} (g : A -> B) n l :
  NoDup (map g l) -> NoDup (map g (firstn n l)).
Proof.
  revert n. induction l as [|a r IH]; intros [|n]; simpl; try constructor.
  - inversion H as [|x xs Hnotin Hnodup]; subst.
    intros Hin. apply Hnotin. apply in_map_iff in Hin as (y & Hy & Hin).
    apply In_firstn in Hin. apply in_map_iff. eauto.
  - inversion H; subst. now apply IH.
Qed.

End RankingFacts.

(** ** Rank fusion *)
Module FusionFacts.
Import Ranking Retriever RankingFacts.

Lemma seen_In c seen : existsb (String.eqb c) seen = true <-> In c seen.
Proof.
  rewrite existsb_exists. split.
  - intros (x & Hx & E). apply String.eqb_eq in E. now subst.
  - intros H. exists c. split; [exact H | apply String.eqb_refl].
Qed.

Lemma rank_from_None from c l : rank_from from c l = None <-> ~ In c l.
Proof.
  revert from. induction l as [|x r IH]; intros from; simpl; [tauto|].
  destruct (String.eqb_spec x c) as [->|Hne].
  - split; [discriminate | intros H; exfalso; auto].
  - rewrite IH. tauto.
Qed.

(** The rank is the 1-indexed position of the first occurrence. *)
Lemma rank_from_Some from c l r :
  rank_from from c l = Some r <->
  (from <= r)%nat
  /\ nth_error l (r - from) = Some c
  /\ forall j, (j < r - from)%nat -> nth_error l j <> Some c.
Proof.
  revert from. induction l as [|x l IH]; intros from; simpl.
  - split; [discriminate|]. intros (_ & H & _). now destruct (r - from)%nat.
  - destruct (String.eqb_spec x c) as [->|Hne].
    + split.
      * intros H. inversion H; subst. rewrite Nat.sub_diag.
        repeat split; [lia | intros j Hj; lia].
      * intros (Hle & Hnth & Hfirst).
        destruct (r - from)%nat as [|d] eqn:E; [f_equal; lia|].
        exfalso. apply (Hfirst 0%nat); [lia | reflexivity].
    + rewrite IH. split.
      * intros (Hle & Hnth & Hfirst).
        replace (r - from)%nat with (S (r - S from)) by lia.
        repeat split; [lia | exact Hnth |].
        intros [|j] Hj; simpl; [congruence | apply Hfirst; lia].
      * intros (Hle & Hnth & Hfirst).
        destruct (r - from)%nat as [|d] eqn:E; [simpl in Hnth; congruence|].
        replace (r - S from)%nat with d by lia.
        repeat split; [lia | exact Hnth |].
        intros j Hj. apply (Hfirst (S j)). lia.
Qed.

(** In a list without repetition the rank of an element is its position
    plus one. *)
Lemma rank_in_position c l i :
  NoDup l -> nth_error l i = Some c -> rank_in c l = Some (S i).
Proof.
  intros Hnd Hnth. apply rank_from_Some.
  replace (S i - 1)%nat with i by lia.
  repeat split; [lia | exact Hnth |].
  intros j Hj Hnthj.
  assert (j = i); [|lia].
  apply (proj1 (NoDup_nth_error l) Hnd); [|congruence].
  apply nth_error_Some. congruence.
Qed.

Lemma first_ids_In c seen l :
  In c (first_ids seen l) <-> In c l /\ ~ In c seen.
Proof.
  revert seen. induction l as [|x r IH]; intros seen; simpl; [tauto|].
  destruct (existsb (String.eqb x) seen) eqn:E.
  - apply seen_In in E. rewrite IH. split; [tauto|].
    intros [[->|H] Hn]; tauto.
  - assert (Hx : ~ In x seen) by (rewrite <- seen_In, E; discriminate).
    simpl. rewrite IH. simpl. split.
    + intros [->|(H & Hn)]; [tauto|]. split; [tauto|]. intros Hs. apply Hn. tauto.
    + intros [[->|H] Hn]; [tauto|].
      destruct (string_dec x c) as [->|Hne]; [tauto|]. right. split; [exact H|].
      intros [?|?]; tauto.
Qed.

Lemma first_ids_NoDup seen l : NoDup (first_ids seen l).
Proof.
  revert seen. induction l as [|x r IH]; intros seen; simpl; [constructor|].
  destruct (existsb (String.eqb x) seen); [apply IH|].
  constructor; [|apply IH].
  rewrite first_ids_In. simpl. tauto.
Qed.

(** The fused list holds one candidate per id of the two lists. *)
Lemma fuse_ids cfg corpus dense lexical :
  Permutation (map cand_id (fuse cfg corpus dense lexical))
              (first_ids [] (dense ++ lexical)).
Proof.
  unfold fuse. rewrite stable_sort_permutation, map_map. simpl.
  now rewrite map_id.
Qed.

Lemma fuse_In cfg corpus dense lexical cand :
  In cand (fuse cfg corpus dense lexical) <->
  (In (cand_id cand) dense \/ In (cand_id cand) lexical)
  /\ cand = {| cand_id := cand_id cand;
               cand_passage := corpus (cand_id cand);
               best_rank := min_rank (rank_in (cand_id cand) dense)
                                     (rank_in (cand_id cand) lexical);
               score := fused_score (rank_constant cfg) dense lexical (cand_id cand) |}.
Proof.
  unfold fuse. split.
  - intros H. apply (Permutation_in _ (stable_sort_permutation _ _)) in H.
    apply in_map_iff in H as (c & <- & Hc). simpl.
    apply first_ids_In in Hc as [Hc _]. apply in_app_or in Hc. auto.
  - intros [Hin E].
    apply (Permutation_in _ (Permutation_sym (stable_sort_permutation _ _))).
    apply in_map_iff. exists (cand_id cand). split; [now symmetry|].
    apply first_ids_In. split; [apply in_or_app; exact Hin | auto].
Qed.

(** [c] stands at the 1-indexed rank [r] of the ranked list [l]: it is the
    [r]-th element of [l], and none of the elements before it. *)
Definition at_rank (l : list chunk_id) (r : nat) (c : chunk_id) : Prop :=
  (1 <= r)%nat
  /\ nth_error l (r - 1) = Some c
  /\ forall j, (j < r - 1)%nat -> nth_error l j <> Some c.

(** The rank the fusion reads is the position in the list, counted
    from 1. *)
Lemma rank_in_at_rank c l r : rank_in c l = Some r <-> at_rank l r c.
Proof. unfold rank_in, at_rank. apply rank_from_Some. Qed.

(** In a list without repetition the element at index [i] has rank
    [i + 1]. *)
Lemma at_rank_position c l i :
  NoDup l -> nth_error l i = Some c -> at_rank l (S i) c.
Proof. intros Hnd Hnth. apply rank_in_at_rank. now apply rank_in_position. Qed.

(** Every element of a list has a rank in it. *)
Lemma at_rank_total c l : In c l -> exists r, at_rank l r c.
Proof.
  intros Hin. destruct (rank_in c l) as [r|] eqn:E.
  - exists r. now apply rank_in_at_rank.
  - apply (rank_from_None 1) in E. contradiction.
Qed.

(** C1.  Rank fusion scores by position.  A candidate that stands at
    position [r1] of the dense list and at position [r2] of the lexical
    list (positions counted from 1) has the fused score
    [1/(k + r1) + 1/(k + r2)] exactly; a candidate of one list only has
    that list's term; every candidate has a position in one of the lists,
    so its score is one of these sums.  The output holds exactly the ids of
    the two lists, each once, so an id absent from both lists never
    appears. *)
Theorem fused_score_by_position (cfg : Config)
    (corpus : chunk_id -> Passage) (dense lexical : list chunk_id) :
  let k := rank_constant cfg in
  let fused := fuse cfg corpus dense lexical in
  (forall c, In c (map cand_id fused) <-> In c dense \/ In c lexical)
  /\ NoDup (map cand_id fused)
  /\ forall cand, In cand fused ->
       (forall r1 r2,
          at_rank dense r1 (cand_id cand) -> at_rank lexical r2 (cand_id cand) ->
          score cand = 1 / (k + inject_Z (Z.of_nat r1))
                       + 1 / (k + inject_Z (Z.of_nat r2)))
       /\ (forall r1,
             at_rank dense r1 (cand_id cand) -> ~ In (cand_id cand) lexical ->
             score cand == 1 / (k + inject_Z (Z.of_nat r1)))
       /\ (forall r2,
             ~ In (cand_id cand) dense -> at_rank lexical r2 (cand_id cand) ->
             score cand == 1 / (k + inject_Z (Z.of_nat r2)))
       /\ ((exists r1, at_rank dense r1 (cand_id cand))
           \/ (exists r2, at_rank lexical r2 (cand_id cand))).
Proof.
  intros k fused. split; [|split].
  - intros c. split.
    + intros Hin.
      apply (Permutation_in _ (fuse_ids cfg corpus dense lexical)) in Hin.
      apply first_ids_In in Hin as [Hin _]. now apply in_app_or in Hin.
    + intros Hin.
      apply (Permutation_in _ (Permutation_sym (fuse_ids cfg corpus dense lexical))).
      apply first_ids_In. split; [now apply in_or_app | auto].
  - apply (Permutation_NoDup (Permutation_sym (fuse_ids cfg corpus dense lexical))).
    apply first_ids_NoDup.
  - intros cand Hcand. apply fuse_In in Hcand as [Hlisted Hcand].
    set (c := cand_id cand) in *.
    assert (Hscore : score cand = fused_score k dense lexical c)
      by (rewrite Hcand; reflexivity).
    unfold fused_score in Hscore.
    split; [|split; [|split]].
    + intros r1 r2 H1 H2.
      apply rank_in_at_rank in H1. apply rank_in_at_rank in H2.
      rewrite Hscore, H1, H2. reflexivity.
    + intros r1 H1 H2.
      apply rank_in_at_rank in H1.
      apply (rank_from_None 1) in H2. fold (rank_in c lexical) in H2.
      rewrite Hscore, H1, H2. simpl. ring.
    + intros r2 H1 H2.
      apply rank_in_at_rank in H2.
      apply (rank_from_None 1) in H1. fold (rank_in c dense) in H1.
      rewrite Hscore, H1, H2. simpl. ring.
    + destruct Hlisted as [H|H]; [left | right]; now apply at_rank_total.
Qed.

Definition sample_config : Config :=
  {| rank_constant := 60; rerank_depth := 10; top_k := 3;
     tier_boost := 12 # 10;
     authoritative_prefixes := ["Technical/"; "Pricing/"];
     floor_constant := 15 # 100;
     static_threshold := 0 |}.

Definition sample_corpus (c : chunk_id) : Passage :=
  {| passage_source := "Technical/guide.pdf"; passage_text := c |}.

(** The candidate of the chunk "c", third of the dense list and first of
    the lexical list. *)
Definition third_and_first : Candidate :=
  {| cand_id := "c";
     cand_passage := sample_corpus "c";
     best_rank := 1;
     score := fused_score 60 ["a"; "b"; "c"] ["c"; "a"; "d"] "c" |}.

Lemma fused_score_by_position_witness :
  In third_and_first (fuse sample_config sample_corpus ["a"; "b"; "c"] ["c"; "a"; "d"])
  /\ at_rank ["a"; "b"; "c"] 3 "c"
  /\ at_rank ["c"; "a"; "d"] 1 "c"
  /\ score third_and_first = 1 / (60 + inject_Z (Z.of_nat 3))
                             + 1 / (60 + inject_Z (Z.of_nat 1)).
Proof.
  assert (Hin : In third_and_first
                  (fuse sample_config sample_corpus ["a"; "b"; "c"] ["c"; "a"; "d"])).
  { apply fuse_In. split; [simpl; auto | reflexivity]. }
  assert (H1 : at_rank ["a"; "b"; "c"] 3 "c") by (apply rank_in_at_rank; reflexivity).
  assert (H2 : at_rank ["c"; "a"; "d"] 1 "c") by (apply rank_in_at_rank; reflexivity).
  split; [exact Hin|]. split; [exact H1|]. split; [exact H2|].
  destruct (fused_score_by_position sample_config sample_corpus
              ["a"; "b"; "c"] ["c"; "a"; "d"]) as (_ & _ & H).
  destruct (H third_and_first Hin) as (Hboth & _).
  exact (Hboth 3%nat 1%nat H1 H2).
Defined.

End FusionFacts.

(** ** Dynamic thresholding *)
Module ThresholdFacts.
Import Retriever.

Lemma Qlt_bool_iff x y : Qlt_bool x y = true <-> x < y.
Proof.
  unfold Qlt_bool. rewrite negb_true_iff, <- not_true_iff_false, Qle_bool_iff.
  split; [apply Qnot_le_lt | apply Qlt_not_le].
Qed.

Lemma Qlt_bool_Rlt x y : Qlt_bool x y = true <-> (Q2R x < Q2R y)%R.
Proof. rewrite Qlt_bool_iff. split; [apply Qlt_Rlt | apply Rlt_Qlt]. Qed.

Lemma Q2R_Qsum xs : Q2R (Qsum xs) = Rsum (map Q2R xs).
Proof.
  induction xs as [|x xs IH]; simpl.
  - apply RMicromega.Q2R_0.
  - now rewrite Q2R_plus, IH.
Qed.

Lemma Q2R_count xs : Q2R (count xs) = INR (List.length xs).
Proof.
  unfold count, Q2R. simpl. rewrite INR_IZR_INZ. lra.
Qed.

Lemma count_nonzero xs : xs <> [] -> ~ count xs == 0.
Proof.
  intros Hne H. apply Qeq_eqR in H.
  rewrite Q2R_count, RMicromega.Q2R_0 in H.
  destruct xs as [|x xs]; [contradiction|].
  pose proof (pos_INR (List.length xs)). simpl List.length in H.
  rewrite S_INR in H. lra.
Qed.

Lemma Q2R_mean xs : xs <> [] -> Q2R (mean xs) = mean_R (map Q2R xs).
Proof.
  intros Hne. unfold mean, mean_R.
  rewrite Q2R_div by now apply count_nonzero.
  now rewrite Q2R_Qsum, Q2R_count, length_map.
Qed.

(** The rational variance is the square of the real standard deviation's
    argument. *)
Lemma std_R_variance xs :
  xs <> [] -> std_R (map Q2R xs) = sqrt (Q2R (variance xs)).
Proof.
  intros Hne. unfold std_R, variance. f_equal.
  rewrite Q2R_div by now apply count_nonzero.
  rewrite Q2R_Qsum, Q2R_count, !map_map, length_map.
  rewrite <- (Q2R_mean xs Hne).
  f_equal. f_equal. apply map_ext. intros x.
  now rewrite Q2R_mult, Q2R_minus.
Qed.

Lemma Rsum_nonneg ys : Forall (fun y => 0 <= y)%R ys -> (0 <= Rsum ys)%R.
Proof. induction 1 as [|y ys Hy _ IH]; simpl; lra. Qed.

Lemma variance_nonneg xs : xs <> [] -> (0 <= Q2R (variance xs))%R.
Proof.
  intros Hne. unfold variance.
  rewrite Q2R_div by now apply count_nonzero.
  rewrite Q2R_Qsum, Q2R_count.
  apply Rmult_le_pos.
  - apply Rsum_nonneg, Forall_forall. intros y Hy.
    apply in_map_iff in Hy as (q & <- & Hq).
    apply in_map_iff in Hq as (x & <- & _).
    rewrite Q2R_mult. pose proof (Rle_0_sqr (Q2R (x - mean xs))) as Hsq.
    exact Hsq.
  - apply Rlt_le, Rinv_0_lt_compat.
    destruct xs as [|x xs]; [contradiction|].
    simpl List.length. rewrite S_INR. pose proof (pos_INR (List.length xs)). lra.
Qed.

(** Comparing with a square root by squaring. *)
Lemma sqrt_lt_iff (v d : R) :
  (0 <= v)%R -> (sqrt v < d <-> 0 < d /\ v < d * d)%R.
Proof.
  intros Hv. pose proof (sqrt_pos v) as Hs. pose proof (sqrt_sqrt v Hv) as Hsq.
  split.
  - intros H. split; [lra|]. rewrite <- Hsq. nra.
  - intros [Hd Hlt]. destruct (Rlt_le_dec (sqrt v) d) as [|Hge]; [assumption|].
    exfalso. rewrite <- Hsq in Hlt. nra.
Qed.

Lemma Rlt_Rmax (x a b : R) : (x < Rmax a b <-> x < a \/ x < b)%R.
Proof.
  unfold Rmax. destruct (Rle_dec a b); split; intros H; try lra;
    destruct H; lra.
Qed.

(** The rational test decides the comparison with the real threshold. *)
Lemma below_threshold_spec floor xs x :
  xs <> [] ->
  below_threshold floor xs x = true
  <-> (Q2R x < threshold_R (Q2R floor) (map Q2R xs))%R.
Proof.
  intros Hne. unfold below_threshold, below_mean_minus_std, threshold_R.
  rewrite orb_true_iff, andb_true_iff, !Qlt_bool_Rlt, Rlt_Rmax.
  rewrite std_R_variance, <- Q2R_mean by assumption.
  rewrite Q2R_mult, Q2R_minus, RMicromega.Q2R_0.
  pose proof (sqrt_lt_iff (Q2R (variance xs)) (Q2R (mean xs) - Q2R x)
                (variance_nonneg xs Hne)) as Hsqrt.
  split.
  - intros [H|H]; [left | now right].
    apply Hsqrt in H. lra.
  - intros [H|H]; [left | now right].
    apply Hsqrt. lra.
Qed.

(** The four scores of the specification's example. *)
Definition example_scores : list Q := [9 # 10; 85 # 100; 2 # 10; 1 # 10].

Lemma example_statistics :
  mean example_scores == 5125 # 10000
  /\ variance example_scores == 13296875 # 100000000.
Proof. split; reflexivity. Qed.

(** C2 (amended).  Dynamic thresholding keeps exactly the reranked
    candidates whose score is not below
    [max(mean - standard_deviation, floor_constant)], mean and standard
    deviation taken over the scores of the reranked set.  For the scores
    [0.9, 0.85, 0.2, 0.1] the mean is 0.5125 and [mean - deviation] lies
    between 0.147 and 0.149, so the candidate scoring 0.1 is below the
    threshold and is dropped; the other three are kept whenever the floor
    is at most 0.2. *)
Theorem dynamic_threshold_keeps_not_below (cfg : Config) (cs : list Candidate) :
  (forall c,
     In c (dynamic_threshold cfg cs) <->
     In c cs
     /\ ~ (Q2R (score c)
           < threshold_R (Q2R (floor_constant cfg)) (map Q2R (map score cs)))%R)
  /\ (forall c1 c2 c3 c4,
        cs = [c1; c2; c3; c4] ->
        map score cs = example_scores ->
        (147 / 1000
         < mean_R (map Q2R example_scores) - std_R (map Q2R example_scores)
         < 149 / 1000)%R
        /\ ~ In c4 (dynamic_threshold cfg cs)
        /\ (floor_constant cfg <= 2 # 10 ->
            dynamic_threshold cfg cs = [c1; c2; c3])).
Proof.
  split.
  - intros c. unfold dynamic_threshold. rewrite filter_In.
    split; intros [Hin H]; split; try assumption.
    + assert (Hne : map score cs <> [])
        by (destruct cs; [contradiction | discriminate]).
      rewrite <- (below_threshold_spec _ _ _ Hne).
      now apply negb_true_iff, not_true_iff_false in H.
    + assert (Hne : map score cs <> [])
        by (destruct cs; [contradiction | discriminate]).
      rewrite <- (below_threshold_spec _ _ _ Hne) in H.
      now apply negb_true_iff, not_true_iff_false.
  - intros c1 c2 c3 c4 -> Hscores.
    assert (Hne : example_scores <> []) by discriminate.
    split; [|split].
    + rewrite std_R_variance, <- Q2R_mean by assumption.
      destruct example_statistics as [Hm Hv].
      rewrite (Qeq_eqR _ _ Hm), (Qeq_eqR _ _ Hv).
      assert (H1 : (sqrt (Q2R (13296875 # 100000000)) < 365 / 1000)%R).
      { apply sqrt_lt_iff; unfold Q2R; simpl; lra. }
      assert (H2 : ~ (sqrt (Q2R (13296875 # 100000000)) < 364 / 1000)%R).
      { intros H. apply sqrt_lt_iff in H; unfold Q2R in *; simpl in *; lra. }
      unfold Q2R at 1 3. simpl. lra.
    + unfold dynamic_threshold. rewrite filter_In, Hscores.
      simpl in Hscores. inversion Hscores as [[H1 H2 H3 H4]].
      intros [_ H]. rewrite H4 in H.
      assert (E : below_mean_minus_std example_scores (1 # 10) = true)
        by (vm_compute; reflexivity).
      unfold below_threshold in H. rewrite E in H. discriminate H.
    + intros Hfloor. unfold dynamic_threshold. rewrite Hscores.
      simpl in Hscores. inversion Hscores as [[H1 H2 H3 H4]].
      assert (Hkeep : forall x, 2 # 10 <= x ->
                Qlt_bool x (floor_constant cfg) = false).
      { intros x Hx. apply not_true_iff_false. rewrite Qlt_bool_iff.
        apply Qle_not_lt. now apply Qle_trans with (2 # 10). }
      cbn [filter]. unfold below_threshold.
      rewrite H1, H2, H3, H4.
      rewrite !Hkeep by (unfold Qle; simpl; lia).
      replace (below_mean_minus_std example_scores (9 # 10)) with false
        by (vm_compute; reflexivity).
      replace (below_mean_minus_std example_scores (85 # 100)) with false
        by (vm_compute; reflexivity).
      replace (below_mean_minus_std example_scores (2 # 10)) with false
        by (vm_compute; reflexivity).
      replace (below_mean_minus_std example_scores (1 # 10)) with true
        by (vm_compute; reflexivity).
      reflexivity.
Qed.

Definition scored (c : chunk_id) (s : Q) : Candidate :=
  {| cand_id := c;
     cand_passage := {| passage_source := "Technical/guide.pdf"; passage_text := c |};
     best_rank := 1; score := s |}.

Definition example_candidates : list Candidate :=
  [scored "a" (9 # 10); scored "b" (85 # 100); scored "c" (2 # 10); scored "d" (1 # 10)].

Definition floor_015 : Config :=
  {| rank_constant := 60; rerank_depth := 10; top_k := 3;
     tier_boost := 12 # 10;
     authoritative_prefixes := ["Technical/"; "Pricing/"];
     floor_constant := 15 # 100;
     static_threshold := 0 |}.

Lemma dynamic_threshold_keeps_not_below_witness :
  map score example_candidates = example_scores
  /\ floor_constant floor_015 <= 2 # 10
  /\ dynamic_threshold floor_015 example_candidates
     = [scored "a" (9 # 10); scored "b" (85 # 100); scored "c" (2 # 10)].
Proof.
  split; [reflexivity|].
  split; [unfold Qle; simpl; lia|].
  destruct (dynamic_threshold_keeps_not_below floor_015 example_candidates)
    as [_ H].
  destruct (H _ _ _ _ eq_refl eq_refl) as (_ & _ & Hkept).
  apply Hkept. unfold Qle; simpl; lia.
Defined.

(** With the floor of the repository's audit notes (0.15), and with no
    floor at all, the candidate scoring 0.1 does not survive: three of the
    four candidates are returned. *)
Lemma dynamic_threshold_example_drops_lowest :
  map cand_id (dynamic_threshold floor_015 example_candidates) = ["a"; "b"; "c"]
  /\ map cand_id
       (dynamic_threshold
          {| rank_constant := 60; rerank_depth := 10; top_k := 3;
             tier_boost := 1; authoritative_prefixes := [];
             floor_constant := 0; static_threshold := 0 |}
          example_candidates)
     = ["a"; "b"; "c"].
Proof. split; vm_compute; reflexivity. Qed.

End ThresholdFacts.

(** ** The Retrieval Result *)
Module RetrievalFacts.
Import Ranking Retriever RankingFacts FusionFacts.

Definition by_score (a b : Candidate) : Prop := score_before a b = true.

Lemma score_before_total a b : score_before a b = false -> score_before b a = true.
Proof.
  unfold score_before. intros H. apply Qle_bool_iff.
  apply not_true_iff_false in H. rewrite Qle_bool_iff in H.
  apply Qlt_le_weak. now apply Qnot_le_lt.
Qed.

Lemma score_before_trans a b c :
  score_before a b = true -> score_before b c = true -> score_before a c = true.
Proof.
  unfold score_before. rewrite !Qle_bool_iff. intros H1 H2.
  now apply Qle_trans with (score b).
Qed.

Lemma sorted_by_score cs : StronglySorted by_score (stable_sort score_before cs).
Proof.
  apply stable_sort_sorted; [exact score_before_total | exact score_before_trans].
Qed.

Lemma first_by_id_In c seen cs :
  In c (first_by_id seen cs) -> In c cs /\ ~ In (cand_id c) seen.
Proof.
  revert seen. induction cs as [|x r IH]; intros seen; simpl; [tauto|].
  destruct (existsb (String.eqb (cand_id x)) seen) eqn:E.
  - intros H. apply IH in H. tauto.
  - assert (Hx : ~ In (cand_id x) seen) by (rewrite <- seen_In, E; discriminate).
    intros [->|H]; [tauto|]. apply IH in H as [H Hn]. split; [tauto|].
    intros Hs. apply Hn. now right.
Qed.

Lemma first_by_id_NoDup seen cs : NoDup (map cand_id (first_by_id seen cs)).
Proof.
  revert seen. induction cs as [|x r IH]; intros seen; simpl; [constructor|].
  destruct (existsb (String.eqb (cand_id x)) seen); [apply IH|].
  simpl. constructor; [|apply IH].
  intros Hin. apply in_map_iff in Hin as (y & Hy & Hin).
  apply first_by_id_In in Hin as [_ Hn]. apply Hn. rewrite Hy. now left.
Qed.

Lemma first_by_id_sorted (R : Candidate -> Candidate -> Prop) seen cs :
  StronglySorted R cs -> StronglySorted R (first_by_id seen cs).
Proof.
  intros H. revert seen. induction H as [|x r Hr IH Hx]; intros seen; simpl.
  - constructor.
  - destruct (existsb (String.eqb (cand_id x)) seen); [apply IH|].
    constructor; [apply IH|].
    apply Forall_forall. intros y Hy. apply first_by_id_In in Hy as [Hy _].
    revert y Hy. now apply Forall_forall.
Qed.

(** Deduplication leaves one candidate per id, highest score first. *)
Lemma dedup_invariant cs :
  NoDup (map cand_id (dedup cs)) /\ StronglySorted by_score (dedup cs).
Proof.
  unfold dedup. split.
  - apply first_by_id_NoDup.
  - apply first_by_id_sorted, sorted_by_score.
Qed.

(** Every candidate that deduplication keeps was a candidate before, and
    no candidate with the same id had a higher score. *)
Lemma dedup_keeps_highest cs c :
  In c (dedup cs) ->
  In c cs /\ forall c', In c' cs -> cand_id c' = cand_id c -> score c' <= score c.
Proof.
  unfold dedup. intros Hin.
  pose proof (stable_sort_permutation score_before cs) as Hperm.
  pose proof (sorted_by_score cs) as Hsorted.
  split.
  { apply first_by_id_In in Hin as [Hin _]. now apply (Permutation_in _ Hperm). }
  intros c' Hc' Hid.
  apply (Permutation_in _ (Permutation_sym Hperm)) in Hc'.
  revert Hin Hc' Hsorted. generalize (stable_sort score_before cs). intros l.
  assert (Hgen : forall seen,
             In c (first_by_id seen l) -> In c' l -> StronglySorted by_score l ->
             ~ In (cand_id c') seen -> score c' <= score c).
  { induction l as [|x r IH]; intros seen Hin Hc' Hsorted Hseen; [contradiction|].
    apply StronglySorted_inv in Hsorted as [Hr Hx].
    simpl in Hin.
    destruct (existsb (String.eqb (cand_id x)) seen) eqn:E.
    - apply seen_In in E. destruct Hc' as [->|Hc']; [contradiction|].
      now apply (IH seen).
    - destruct Hin as [->|Hin].
      + destruct Hc' as [->|Hc']; [apply Qle_refl|].
        apply Qle_bool_iff. rewrite Forall_forall in Hx. now apply Hx.
      + apply first_by_id_In in Hin as Hin'. destruct Hin' as [_ Hn].
        destruct Hc' as [->|Hc'].
        * exfalso. apply Hn. left. exact Hid.
        * apply (IH (cand_id x :: seen)); try assumption.
          intros [Heq|Hs]; [|contradiction].
          apply Hn. left. congruence. }
  intros Hin Hc' Hsorted. apply (Hgen []); auto.
Qed.

Lemma set_score_ids (f : Candidate -> Q) cs :
  map cand_id (map (fun c => set_score c (f c)) cs) = map cand_id cs.
Proof. rewrite map_map. reflexivity. Qed.

Lemma rerank_invariant r query cs :
  Permutation (map cand_id (rerank r query cs)) (map cand_id cs)
  /\ StronglySorted by_score (rerank r query cs).
Proof.
  unfold rerank. split.
  - rewrite stable_sort_permutation.
    now rewrite (set_score_ids (fun c => r query (passage_text (cand_passage c)))).
  - apply sorted_by_score.
Qed.

Lemma by_score_Qle cs :
  StronglySorted by_score cs -> StronglySorted (fun a b => score b <= score a) cs.
Proof.
  induction 1 as [|x r Hr IH Hx]; constructor; [exact IH|].
  eapply Forall_impl; [|exact Hx]. intros y Hy. now apply Qle_bool_iff.
Qed.

(** C3.  For every query and every outcome of the index and reranker
    calls, the Retrieval Result holds no two entries with the same
    chunk id, is ordered by final score, highest first, and has at most
    top-k entries. *)
Theorem retrieval_result_invariant (cfg : Config) (corpus : chunk_id -> Passage)
    (reranker : option Reranker) (query : string)
    (dense lexical : option (list chunk_id)) :
  let result := retrieve cfg corpus reranker query dense lexical in
  NoDup (map cand_id result)
  /\ StronglySorted (fun a b => score b <= score a) result
  /\ (List.length result <= top_k cfg)%nat.
Proof.
  intros result. subst result. unfold retrieve.
  set (tiered := dedup (apply_tiering cfg (fuse cfg corpus (hits dense) (hits lexical)))).
  destruct (dedup_invariant
              (apply_tiering cfg (fuse cfg corpus (hits dense) (hits lexical))))
    as [Hnodup Hsorted].
  fold tiered in Hnodup, Hsorted.
  destruct reranker as [r|].
  - destruct (rerank_invariant r query (firstn (rerank_depth cfg) tiered))
      as [Hperm Hranked].
    repeat split.
    + apply NoDup_map_firstn. unfold dynamic_threshold. apply NoDup_map_filter.
      apply (Permutation_NoDup (Permutation_sym Hperm)).
      now apply NoDup_map_firstn.
    + apply by_score_Qle, sorted_firstn. unfold dynamic_threshold.
      now apply sorted_filter.
    + apply firstn_le_length.
  - repeat split.
    + apply NoDup_map_firstn. unfold static_filter. now apply NoDup_map_filter.
    + apply by_score_Qle, sorted_firstn. unfold static_filter.
      now apply sorted_filter.
    + apply firstn_le_length.
Qed.

End RetrievalFacts.

(** ** White space and trimming *)
Module WhiteSpaceFacts.
Import Js.

Lemma after_prefix_Some w l r : after_prefix w l = Some r -> l = w ++ r.
Proof.
  revert l. induction w as [|a w IH]; intros l H; simpl in H.
  - now inversion H.
  - destruct l as [|b l]; [discriminate H|].
    destruct (Ascii.eqb_spec a b) as [->|_]; [|discriminate H].
    simpl. f_equal. now apply IH.
Qed.

Lemma after_prefix_app w r : after_prefix w (w ++ r) = Some r.
Proof.
  induction w as [|a w IH]; simpl; [reflexivity|].
  now rewrite Ascii.eqb_refl.
Qed.

Lemma skip_one_Some table l r :
  skip_one table l = Some r -> exists w, In w table /\ l = w ++ r.
Proof.
  induction table as [|w ws IH]; simpl; [discriminate|].
  destruct (after_prefix w l) as [r'|] eqn:E.
  - intros H. inversion H; subst r'. exists w. split; [now left|].
    now apply after_prefix_Some.
  - intros H. destruct (IH H) as (w' & Hin & Heq). exists w'. auto.
Qed.

Lemma skip_one_None table l :
  skip_one table l = None -> forall w r, In w table -> l <> w ++ r.
Proof.
  induction table as [|w0 ws IH]; simpl; intros H w r Hin; [contradiction|].
  destruct (after_prefix w0 l) as [r'|] eqn:E; [discriminate H|].
  destruct Hin as [->|Hin].
  - intros ->. rewrite after_prefix_app in E. discriminate E.
  - now apply IH.
Qed.

(** No character of the table is empty. *)
Definition characters (table : list (list ascii)) : Prop :=
  Forall (fun w => w <> []) table.

Lemma skip_one_nil table : characters table -> skip_one table [] = None.
Proof.
  induction 1 as [|w ws Hw _ IH]; simpl; [reflexivity|].
  destruct w; [contradiction | exact IH].
Qed.

Lemma skip_all_nil fuel table : characters table -> skip_all fuel table [] = [].
Proof.
  intros H. destruct fuel; simpl; [reflexivity|].
  now rewrite skip_one_nil.
Qed.

(** With fuel for every byte, [skip_all] removes characters of the table
    and stops in front of something else. *)
Lemma skip_all_spec table fuel l :
  characters table -> (List.length l <= fuel)%nat ->
  exists ws,
    Forall (fun w => In w table) ws
    /\ l = List.concat ws ++ skip_all fuel table l
    /\ skip_one table (skip_all fuel table l) = None.
Proof.
  intros Htable. revert l. induction fuel as [|n IH]; intros l Hlen.
  - destruct l; [|simpl in Hlen; lia].
    exists []. simpl. repeat split; [constructor | now apply skip_one_nil].
  - simpl. destruct (skip_one table l) as [r|] eqn:E.
    + destruct (skip_one_Some _ _ _ E) as (w & Hin & ->).
      assert (Hw : w <> []) by (apply (proj1 (Forall_forall _ _) Htable); exact Hin).
      destruct (IH r) as (ws & Hws & Heq & Hnone).
      { rewrite length_app in Hlen. destruct w; [contradiction|]. simpl in Hlen. lia. }
      exists (w :: ws). repeat split.
      * now constructor.
      * simpl. rewrite <- app_assoc. now f_equal.
      * exact Hnone.
    + exists []. simpl. repeat split; [constructor | exact E].
Qed.

Lemma white_space_characters : characters white_space.
Proof. repeat constructor; discriminate. Qed.

Lemma white_space_rev_characters : characters (map (@rev ascii) white_space).
Proof. repeat constructor; discriminate. Qed.

(** No white space character starts with another one: the first
    character of a text is read in one way only. *)
Lemma skip_one_white_space w r :
  In w white_space -> skip_one white_space (w ++ r) = Some r.
Proof.
  unfold white_space. simpl map. intros Hin.
  repeat (destruct Hin as [<-|Hin]; [reflexivity|]).
  contradiction.
Qed.

Lemma skip_all_white_space ws fuel rest :
  Forall (fun w => In w white_space) ws ->
  (List.length ws <= fuel)%nat ->
  skip_all fuel white_space (List.concat ws ++ rest)
  = skip_all (fuel - List.length ws) white_space rest.
Proof.
  intros Hws. revert fuel. induction Hws as [|w ws Hw _ IH]; intros fuel Hlen.
  - simpl. now rewrite Nat.sub_0_r.
  - destruct fuel as [|n]; [simpl in Hlen; lia|].
    simpl List.concat. rewrite <- app_assoc.
    cbn [skip_all]. rewrite (skip_one_white_space w _ Hw).
    simpl in Hlen. rewrite IH by lia. reflexivity.
Qed.

Lemma concat_length_characters (table : list (list ascii)) ws :
  characters table -> Forall (fun w => In w table) ws ->
  (List.length ws <= List.length (List.concat ws))%nat.
Proof.
  intros Htable. induction 1 as [|w ws Hw _ IH]; simpl; [lia|].
  assert (w <> []) by (apply (proj1 (Forall_forall _ _) Htable); exact Hw).
  rewrite length_app. destruct w; [contradiction|]. simpl. lia.
Qed.

(** A text made of white space only: a sequence of characters of
    [white_space]. *)
Definition white_space_only (s : string) : Prop :=
  exists ws,
    Forall (fun w => In w white_space) ws /\ list_ascii_of_string s = List.concat ws.

Lemma drop_spaces_white_space ws :
  Forall (fun w => In w white_space) ws -> drop_spaces (List.concat ws) = [].
Proof.
  intros Hws. unfold drop_spaces.
  rewrite <- (app_nil_r (List.concat ws)) at 2.
  rewrite (skip_all_white_space ws _ [] Hws).
  - apply skip_all_nil, white_space_characters.
  - apply (concat_length_characters white_space);
      [apply white_space_characters | exact Hws].
Qed.

(** What [drop_spaces] leaves does not start with white space, and what
    it removed was white space. *)
Lemma drop_spaces_spec l :
  exists ws,
    Forall (fun w => In w white_space) ws
    /\ l = List.concat ws ++ drop_spaces l
    /\ forall w r, In w white_space -> drop_spaces l <> w ++ r.
Proof.
  destruct (skip_all_spec white_space (List.length l) l
              white_space_characters (le_n _)) as (ws & Hws & Heq & Hnone).
  exists ws. repeat split; [exact Hws | exact Heq |].
  now apply skip_one_None.
Qed.

(** What [drop_spaces_end] leaves does not end with white space. *)
Lemma drop_spaces_end_nil l :
  drop_spaces_end l = [] ->
  l = [] \/ exists w r, In w white_space /\ l = w ++ r.
Proof.
  unfold drop_spaces_end. intros H.
  assert (Hskip : skip_all (List.length l) (map (@rev ascii) white_space) (rev l) = []).
  { apply (f_equal (@rev ascii)) in H. now rewrite rev_involutive in H. }
  destruct (skip_all_spec (map (@rev ascii) white_space) (List.length l) (rev l)
              white_space_rev_characters) as (ws & Hws & Heq & _).
  { now rewrite length_rev. }
  rewrite Hskip, app_nil_r in Heq.
  destruct (rev ws) as [|w' ws'] eqn:E.
  - left. apply (f_equal (@rev (list ascii))) in E. rewrite rev_involutive in E.
    subst ws. simpl in Heq. apply (f_equal (@rev ascii)) in Heq.
    now rewrite rev_involutive in Heq.
  - right. apply (f_equal (@rev (list ascii))) in E. rewrite rev_involutive in E.
    simpl in E. subst ws.
    apply Forall_app in Hws as [_ Hw']. inversion Hw' as [|? ? Hin _]; subst.
    apply in_map_iff in Hin as (w & <- & Hw).
    exists w, (rev (List.concat (rev ws'))). split; [exact Hw|].
    apply (f_equal (@rev ascii)) in Heq. rewrite rev_involutive in Heq.
    rewrite Heq, List.concat_app, rev_app_distr. simpl.
    now rewrite app_nil_r, rev_involutive.
Qed.

Lemma string_of_list_ascii_nil l : string_of_list_ascii l = EmptyString -> l = [].
Proof. destruct l; [reflexivity | discriminate]. Qed.

(** [trim] leaves nothing exactly of the texts made of white space. *)
Lemma trim_empty s : trim s = EmptyString <-> white_space_only s.
Proof.
  unfold trim, white_space_only. split.
  - intros H. apply string_of_list_ascii_nil in H.
    destruct (drop_spaces_spec (list_ascii_of_string s)) as (ws & Hws & Heq & Hstop).
    exists ws. split; [exact Hws|].
    destruct (drop_spaces_end_nil _ H) as [Hnil|(w & r & Hw & Hwr)].
    + rewrite Hnil, app_nil_r in Heq. exact Heq.
    + exfalso. exact (Hstop w r Hw Hwr).
  - intros (ws & Hws & ->). now rewrite (drop_spaces_white_space ws Hws).
Qed.

(** A text that starts with a digit starts with no white space. *)
Lemma trimStart_digit c r :
  is_digit c = true -> trimStart (String c r) = String c r.
Proof.
  intros Hc. unfold trimStart, drop_spaces.
  change (list_ascii_of_string (String c r)) with (c :: list_ascii_of_string r).
  cbn [List.length skip_all].
  destruct (skip_one white_space (c :: list_ascii_of_string r)) as [rest|] eqn:E.
  - exfalso. destruct (skip_one_Some _ _ _ E) as (w & Hin & Heq).
    unfold white_space in Hin. simpl map in Hin.
    repeat (destruct Hin as [<-|Hin];
            [simpl in Heq; inversion Heq; subst c; discriminate Hc|]).
    contradiction.
  - simpl. now rewrite string_of_list_ascii_of_string.
Qed.

(** A no-break space, an ideographic space and a byte order mark around a
    word are trimmed away. *)
Example trim_unicode_blanks :
  trim (string_of_list_ascii
          (utf8 [194; 160; 32; 104; 105; 227; 128; 128; 239; 187; 191; 10]%nat))
  = "hi".
Proof. reflexivity. Qed.

End WhiteSpaceFacts.

(** ** More about [handleSend] *)
Module SendFacts.
Import Js Text Models Api Chat ChatEffects ChatFacts ArrayFacts WhiteSpaceFacts.

Lemma blocked_iff st :
  blocked st = true
  <-> white_space_only (inputValue st) \/ isLoading st = true.
Proof.
  unfold blocked, truthy_string. rewrite orb_true_iff, negb_involutive.
  rewrite String.eqb_eq, trim_empty. tauto.
Qed.

(** X1.  [handleSend] sends nothing exactly when the input consists of
    white space only (or is empty) or a request is in flight; it then
    leaves the state as it is and calls no callback.  In every other case
    it sends one request whose question is the input as typed,
    untrimmed. *)
Theorem handleSend_sends_unless_blank_or_loading
    (askApi : QueryRequest -> Completion QueryResponse) (now1 now2 : Z)
    (st : ChatState) :
  let run := handleSend askApi now1 now2 st in
  (request_sent run = None
   <-> white_space_only (inputValue st) \/ isLoading st = true)
  /\ (request_sent run = None ->
      state_after run = st /\ first_message run = None
      /\ metadata_update run = None)
  /\ (forall request, request_sent run = Some request ->
        question request = inputValue st
        /\ List.length (messages (state_after run))
           = (List.length (messages st) + 2)%nat).
Proof.
  intros run. subst run. rewrite <- blocked_iff.
  destruct (blocked st) eqn:Hb.
  - rewrite (handleSend_blocked _ _ _ _ Hb). simpl.
    split; [tauto|]. split; [auto|]. intros request H. discriminate H.
  - destruct (handleSend_sent askApi now1 now2 st Hb) as (Hreq & _ & _ & Hrun).
    cbv zeta in Hrun. rewrite Hreq.
    split; [split; intros H; discriminate H|].
    split; [intros H; discriminate H|].
    intros request E. inversion E; subst request. split; [reflexivity|].
    destruct (askApi (request_of st)); destruct Hrun as [-> _];
      rewrite length_app; reflexivity.
Qed.

(** An input of one no-break space and a line separator is not sent. *)
Example handleSend_blocks_unicode_blanks :
  blocked {| messages := [];
             inputValue := string_of_list_ascii (utf8 [194; 160; 226; 128; 168]%nat);
             isLoading := false |} = true.
Proof. reflexivity. Qed.










End SendFacts.

(** ** More about citations *)
Module CitationMoreFacts.
Import Js Text Models Chat StringFacts FormatCitationsFacts ArrayFacts CitationFacts.
Import WhiteSpaceFacts.

Definition not_open (c : ascii) : bool := negb (c =? "[")%char.

(** Text without an opening bracket is copied. *)
Lemma formatCitations_copies pre t :
  all_chars not_open pre = true ->
  formatCitations (pre ++ t) = (pre ++ formatCitations t)%string.
Proof.
  induction pre as [|c pre IH]; simpl; intros H; [reflexivity|].
  apply andb_prop in H as [Hc H]. apply negb_true_iff in Hc.
  rewrite formatCitations_kept by now apply match_cite_other.
  now rewrite IH.
Qed.

(** X3.  [formatCitations] rewrites each bracketed number: text up to the
    first opening bracket is copied, a bracket holding one or more digits
    becomes a [cite] element around those digits, and the rest of the text
    is treated the same way. *)
Theorem formatCitations_rewrites_marker (pre g rest : string) :
  all_chars not_open pre = true ->
  g <> EmptyString ->
  all_chars is_digit g = true ->
  formatCitations (pre ++ "[" ++ g ++ "]" ++ rest)
  = (pre ++ "<cite>" ++ g ++ "</cite>" ++ formatCitations rest)%string.
Proof.
  intros Hpre Hne Hg. rewrite formatCitations_copies by assumption. f_equal.
  assert (E : match_cite ("[" ++ g ++ "]" ++ rest)%string = Some (g, rest))
    by (apply match_cite_spec; auto).
  exact (formatCitations_replaced _ _ _ _ E).
Qed.

Lemma formatCitations_rewrites_marker_witness :
  all_chars not_open "See " = true
  /\ "12" <> EmptyString
  /\ all_chars is_digit "12" = true
  /\ formatCitations "See [12] and [x]" = "See <cite>12</cite> and [x]".
Proof.
  assert (Hne : "12" <> EmptyString) by discriminate.
  split; [reflexivity|]. split; [exact Hne|]. split; [reflexivity|].
  exact (formatCitations_rewrites_marker "See " "12" " and [x]"
           eq_refl Hne eq_refl).
Defined.

(** X4.  [formatCitations] changes a text exactly when the text holds a
    bracketed number: a text in which the pattern matches nowhere is
    returned as it is, and a text that is returned as it is holds no
    match. *)
Theorem formatCitations_unchanged_iff (s : string) :
  formatCitations s = s <-> has_citation s = false.
Proof.
  split.
  - intros H. rewrite <- H. apply formatCitations_no_citation.
  - apply formatCitations_fixed.
Qed.

(** A run of decimal digits parses, digit by digit, to a non-negative
    integer. *)
Lemma parse_digits_decimal g acc :
  all_chars is_digit g = true ->
  (forall a, acc = Some a -> (0 <= a)%Z) ->
  (acc <> None \/ g <> EmptyString) ->
  exists n, parse_digits 10 acc g = Some n /\ (0 <= n)%Z.
Proof.
  revert acc. induction g as [|c g IH]; intros acc Hg Hacc Hsome; simpl.
  - destruct acc as [a|]; [eauto | destruct Hsome; contradiction].
  - simpl in Hg. apply andb_prop in Hg as [Hc Hg].
    assert (Hd : exists d, digit_value 10 c = Some d /\ (0 <= d)%Z).
    { unfold is_digit in Hc. apply andb_prop in Hc as [H1 H2].
      apply Nat.leb_le in H1, H2. unfold digit_value.
      destruct ((48 <=? Z.of_nat (nat_of_ascii c))
                && (Z.of_nat (nat_of_ascii c) <=? 57))%Z eqn:E.
      - destruct (Z.ltb_spec (Z.of_nat (nat_of_ascii c) - 48) 10);
          [eexists; split; [reflexivity | lia] | lia].
      - apply andb_false_iff in E as [E|E];
          [apply Z.leb_gt in E | apply Z.leb_gt in E]; lia. }
    destruct Hd as (d & -> & Hd).
    apply IH; [exact Hg | | left; discriminate].
    intros a Ha. inversion Ha; subst a.
    destruct acc as [a0|]; [|exact Hd].
    specialize (Hacc a0 eq_refl). nia.
Qed.

Lemma digit_facts c :
  is_digit c = true ->
  (c =? "-")%char = false /\ (c =? "+")%char = false
  /\ (c =? "x")%char = false /\ (c =? "X")%char = false.
Proof.
  unfold is_digit. intros H. apply andb_prop in H as [H1 H2].
  apply Nat.leb_le in H1, H2.
  repeat split.
  - apply Ascii.eqb_neq. intros ->. vm_compute in H1, H2. lia.
  - apply Ascii.eqb_neq. intros ->. vm_compute in H1, H2. lia.
  - apply Ascii.eqb_neq. intros ->. vm_compute in H1, H2. lia.
  - apply Ascii.eqb_neq. intros ->. vm_compute in H1, H2. lia.
Qed.

(** The text of a citation marker always parses. *)
Lemma parseInt_digits g :
  g <> EmptyString -> all_chars is_digit g = true ->
  exists n, parseInt g = Some n /\ (0 <= n)%Z.
Proof.
  intros Hne Hg.
  destruct (parse_digits_decimal g None Hg) as (n & Hn & Hpos);
    [discriminate | now right |].
  exists n. split; [|exact Hpos].
  destruct g as [|c g]; [contradiction|].
  simpl in Hg. apply andb_prop in Hg as [Hc Hg].
  destruct (digit_facts c Hc) as (Hminus & Hplus & _).
  unfold parseInt. rewrite (trimStart_digit c g Hc), Hminus, Hplus.
  destruct g as [|c1 g].
  - rewrite Hn. simpl. f_equal. destruct n; reflexivity.
  - simpl in Hg. apply andb_prop in Hg as [Hc1 Hg].
    destruct (digit_facts c1 Hc1) as (_ & _ & Hx & HX).
    rewrite Hx, HX, andb_false_r. rewrite Hn. simpl. f_equal.
    destruct n; reflexivity.
Qed.

(** X5.  The index of a citation that [formatCitations] produced (a run of
    digits) always parses to a number, so [Citation] falls back to the
    plain bracketed index only for the number 0 and for numbers beyond the
    sources of the message (or when the message has no sources). *)
Theorem Citation_of_marker (show : number -> string) (g : string)
    (arr : list SourceResponse) (st : CitationState) :
  g <> EmptyString ->
  all_chars is_digit g = true ->
  exists n,
    parseInt g = Some n /\ (0 <= n)%Z
    /\ (Citation show g (Some arr) st = Return (PlainCitation (bracketed g))
        <-> n = 0%Z \/ (Z.of_nat (List.length arr) < n)%Z)
    /\ Citation show g None st = Return (PlainCitation (bracketed g)).
Proof.
  intros Hne Hg. destruct (parseInt_digits g Hne Hg) as (n & Hn & Hpos).
  exists n. split; [exact Hn|]. split; [exact Hpos|]. split.
  - unfold Citation.
    destruct (cited_source g (Some arr)) as [source|] eqn:E.
    + apply cited_source_Some in E as (arr' & idx & Harr & Hidx & Hrange & _).
      inversion Harr; subst arr'. rewrite Hn in Hidx. inversion Hidx; subst idx.
      simpl. split; [discriminate | lia].
    + apply cited_source_None in E as [E|[E|(arr' & idx & Harr & Hidx & Hrange)]];
        try congruence.
      inversion Harr; subst arr'. rewrite Hn in Hidx. inversion Hidx; subst idx.
      simpl. split; [lia | reflexivity].
  - reflexivity.
Qed.

Lemma Citation_of_marker_witness :
  "2" <> EmptyString
  /\ all_chars is_digit "2" = true
  /\ exists n,
       parseInt "2" = Some n /\ (0 <= n)%Z
       /\ (Citation (fun _ => "n") "2" (Some []) {| isHovered := false; isClicked := false |}
           = Return (PlainCitation (bracketed "2"))
           <-> n = 0%Z \/ (Z.of_nat (List.length (@nil SourceResponse)) < n)%Z)
       /\ Citation (fun _ => "n") "2" None {| isHovered := false; isClicked := false |}
          = Return (PlainCitation (bracketed "2")).
Proof.
  assert (Hne : "2" <> EmptyString) by discriminate.
  split; [exact Hne|]. split; [reflexivity|].
  exact (Citation_of_marker (fun _ => "n") "2" []
           {| isHovered := false; isClicked := false |} Hne eq_refl).
Defined.

End CitationMoreFacts.

(** ** Saved messages *)
Module StorageFacts.
Import Js Text Models Chat Browser ChatEffects App StringFacts.

Lemma append_injective p a b : (p ++ a = p ++ b)%string -> a = b.
Proof.
  induction p as [|c p IH]; simpl; intros H; [exact H|].
  inversion H. now apply IH.
Qed.

Lemma messages_key_injective a b : messages_key a = messages_key b -> a = b.
Proof. apply append_injective. Qed.

Lemma messages_key_not_list c : messages_key c <> conversations_key.
Proof. unfold messages_key, conversations_key. simpl. discriminate. Qed.

Lemma getItem_setItem key value store k :
  getItem k (setItem key value store)
  = if (k =? key)%string then Some value else getItem k store.
Proof. reflexivity. Qed.

Lemma getItem_removeItem key store k :
  getItem k (removeItem key store)
  = if (k =? key)%string then None else getItem k store.
Proof. reflexivity. Qed.

Lemma truthy_string_true s : s <> EmptyString -> truthy_string s = true.
Proof.
  intros H. unfold truthy_string. apply negb_true_iff.
  now apply String.eqb_neq.
Qed.

(** X6.  Messages that were persisted are the messages a later mount of
    the same conversation loads (given that JSON reads back what it wrote
    for them), while a conversation without messages writes nothing: the
    mount of a conversation, which starts from no messages, never replaces
    what is saved for it. *)
Theorem messages_survive_reload (json : Json (list Message))
    (conversationId : string) (st st0 : ChatState) (store : Storage) :
  conversationId <> EmptyString ->
  parse json (stringify json (messages st)) = Some (messages st) ->
  stringify json (messages st) <> EmptyString ->
  (messages st <> [] ->
   load_messages json conversationId
     (persist_messages json conversationId st store) st0
   = Return (setMessages (fun _ => messages st) st0))
  /\ (messages st = [] ->
      load_messages json conversationId
        (persist_messages json conversationId st store) st0
      = load_messages json conversationId store st0).
Proof.
  intros Hid Hjson Hne. split.
  - intros Hmsgs. unfold persist_messages, load_messages.
    rewrite (truthy_string_true _ Hid). simpl negb. cbn [orb].
    destruct (messages st) as [|m ms] eqn:E; [contradiction|].
    cbn [List.length Nat.eqb]. rewrite getItem_setItem, String.eqb_refl.
    unfold saved_value. rewrite (truthy_string_true _ Hne), Hjson.
    reflexivity.
  - intros Hmsgs. unfold persist_messages. rewrite Hmsgs. simpl.
    now rewrite orb_true_r.
Qed.

(** A codec that writes and reads one list of messages. *)
Definition one_list_json (ms : list Message) : Json (list Message) :=
  {| stringify := fun _ => "[messages]";
     parse := fun s => if (s =? "[messages]")%string then Some ms else None |}.

Definition two_messages : list Message :=
  [user_message 1 "pricing?"; failure_message 1].

Definition chat_with (ms : list Message) : ChatState :=
  {| messages := ms; inputValue := EmptyString; isLoading := false |}.

Lemma messages_survive_reload_witness :
  "chat_1" <> EmptyString
  /\ two_messages <> []
  /\ load_messages (one_list_json two_messages) "chat_1"
       (persist_messages (one_list_json two_messages) "chat_1"
          (chat_with two_messages) (fun _ => None))
       (chat_with [])
     = Return (setMessages (fun _ => two_messages) (chat_with [])).
Proof.
  assert (Hid : "chat_1" <> EmptyString) by discriminate.
  assert (Hms : two_messages <> []) by discriminate.
  assert (Hne : "[messages]" <> EmptyString) by discriminate.
  split; [exact Hid|]. split; [exact Hms|].
  destruct (messages_survive_reload (one_list_json two_messages) "chat_1"
              (chat_with two_messages) (chat_with []) (fun _ => None)
              Hid eq_refl Hne) as [H _].
  exact (H Hms).
Defined.

(** X7.  Persisting the messages of one conversation writes one key only:
    what is saved for every other conversation, and the saved list of
    conversations, stay as they were. *)
Theorem persist_messages_is_local (json : Json (list Message))
    (conversationId other : string) (st st0 : ChatState) (store : Storage) :
  other <> conversationId ->
  load_messages json other (persist_messages json conversationId st store) st0
  = load_messages json other store st0
  /\ getItem conversations_key (persist_messages json conversationId st store)
     = getItem conversations_key store.
Proof.
  intros Hother. unfold persist_messages.
  destruct (negb (truthy_string conversationId)
            || (List.length (messages st) =? 0)%nat); [split; reflexivity|].
  split.
  - unfold load_messages. rewrite getItem_setItem.
    destruct (String.eqb_spec (messages_key other) (messages_key conversationId))
      as [E|_]; [|reflexivity].
    apply messages_key_injective in E. contradiction.
  - rewrite getItem_setItem.
    destruct (String.eqb_spec conversations_key (messages_key conversationId))
      as [E|_]; [|reflexivity].
    symmetry in E. now apply messages_key_not_list in E.
Qed.

Lemma persist_messages_is_local_witness :
  "chat_2" <> "chat_1"
  /\ load_messages (one_list_json two_messages) "chat_2"
       (persist_messages (one_list_json two_messages) "chat_1"
          (chat_with two_messages) (fun _ => None))
       (chat_with [])
     = load_messages (one_list_json two_messages) "chat_2" (fun _ => None)
         (chat_with []).
Proof.
  assert (Hother : "chat_2" <> "chat_1") by discriminate.
  split; [exact Hother|].
  exact (proj1 (persist_messages_is_local (one_list_json two_messages)
                  "chat_1" "chat_2" (chat_with two_messages) (chat_with [])
                  (fun _ => None) Hother)).
Defined.

End StorageFacts.

(** ** The list of conversations *)
Module AppFacts.
Import Js Text Models Chat Browser ChatEffects App StringFacts StorageFacts.

Lemma first_id_listed l c : first_id l = Some c -> In c (map conv_id l).
Proof. destruct l as [|x r]; [discriminate|]. intros H. inversion H. now left. Qed.

Lemma filter_ids id l c :
  In c (map conv_id (filter (fun x => negb (conv_id x =? id)%string) l))
  <-> In c (map conv_id l) /\ c <> id.
Proof.
  rewrite !in_map_iff. split.
  - intros (x & <- & Hx). apply filter_In in Hx as [Hx Hne].
    apply negb_true_iff, String.eqb_neq in Hne. eauto.
  - intros [(x & <- & Hx) Hne]. exists x. split; [reflexivity|].
    apply filter_In. split; [exact Hx|].
    now apply negb_true_iff, String.eqb_neq.
Qed.

(** The state [deleteChat] leaves. *)
Lemma deleteChat_state id st store :
  let st' := fst (deleteChat id st store) in
  conversations st'
  = filter (fun c => negb (conv_id c =? id)%string) (conversations st)
  /\ (currentConvId st <> Some id -> currentConvId st' = currentConvId st)
  /\ (currentConvId st = Some id ->
      currentConvId st' = first_id (conversations st')).
Proof.
  unfold deleteChat. cbv zeta. simpl fst.
  destruct (currentConvId st) as [current|] eqn:Hcur.
  - destruct (String.eqb_spec current id) as [->|Hne]; simpl.
    + repeat split. congruence.
    + repeat split; [now rewrite Hcur | congruence].
  - simpl. repeat split; [now rewrite Hcur | congruence].
Qed.

(** X8.  [deleteChat] removes every conversation with the given id and
    keeps the others in order, removes the messages saved for the id and no
    other key, and never leaves the deleted id selected: a selection of the
    deleted conversation moves to the first remaining conversation, or to
    none.  Opening the id again shows no messages. *)
Theorem deleteChat_removes_conversation (json : Json (list Message))
    (id : string) (st : AppState) (store : Storage) (chat : ChatState) :
  let st' := fst (deleteChat id st store) in
  let store' := snd (deleteChat id st store) in
  conversations st'
  = filter (fun c => negb (conv_id c =? id)%string) (conversations st)
  /\ ~ In id (map conv_id (conversations st'))
  /\ currentConvId st' <> Some id
  /\ (currentConvId st <> Some id -> currentConvId st' = currentConvId st)
  /\ (forall key, key <> messages_key id -> getItem key store' = getItem key store)
  /\ (id <> EmptyString ->
      load_messages json id store' chat = Return (setMessages (fun _ => []) chat)).
Proof.
  intros st' store'.
  destruct (deleteChat_state id st store) as (Hconv & Hkeep & Hmove).
  fold st' in Hconv, Hkeep, Hmove.
  assert (Hgone : ~ In id (map conv_id (conversations st')))
    by (rewrite Hconv, filter_ids; tauto).
  split; [exact Hconv|]. split; [exact Hgone|].
  split; [|split; [exact Hkeep|split]].
  - destruct (currentConvId st) as [current|] eqn:Hcur.
    + destruct (string_dec current id) as [->|Hne].
      * rewrite (Hmove eq_refl). intros H. apply first_id_listed in H.
        contradiction.
      * rewrite Hkeep by congruence. congruence.
    + rewrite Hkeep by congruence. discriminate.
  - intros key Hkey. subst store'. unfold deleteChat. simpl snd.
    rewrite getItem_removeItem.
    destruct (String.eqb_spec key (messages_key id)); [contradiction | reflexivity].
  - intros Hid. subst store'. unfold deleteChat, load_messages. simpl snd.
    rewrite (truthy_string_true _ Hid), getItem_removeItem, String.eqb_refl.
    reflexivity.
Qed.

Lemma updateTitle_ids id text now st :
  map conv_id (conversations (updateTitle id text now st))
  = map conv_id (conversations st).
Proof.
  unfold updateTitle. simpl. rewrite map_map. apply map_ext.
  intros c. now destruct (conv_id c =? id)%string.
Qed.

Lemma onFirstMessage_ids text now st :
  map conv_id (conversations (onFirstMessage text now st))
  = map conv_id (conversations st)
  /\ currentConvId (onFirstMessage text now st) = currentConvId st.
Proof.
  unfold onFirstMessage. destruct (currentConvId st) as [c|] eqn:E; [|auto].
  destruct (truthy_string c); [|auto].
  split; [apply updateTitle_ids | exact E].
Qed.

Lemma act_selection json a s :
  selection_listed (fst s) -> selection_listed (fst (act json a s)).
Proof.
  destruct s as [st store]. unfold act. simpl fst. intros Hsel.
  destruct a as [now1 now2|id|i|text now].
  - simpl. unfold selection_listed. simpl. now left.
  - pose proof (deleteChat_state id st store) as (Hconv & Hkeep & Hmove).
    destruct (deleteChat id st store) as [st' store']. simpl fst in *.
    unfold selection_listed in *.
    destruct (currentConvId st) as [current|] eqn:Hcur.
    + destruct (string_dec current id) as [->|Hne].
      * rewrite (Hmove eq_refl).
        destruct (first_id (conversations st')) eqn:E; [|trivial].
        now apply first_id_listed.
      * rewrite Hkeep by congruence. rewrite Hconv.
        apply filter_ids. split; [exact Hsel | exact Hne].
    + rewrite Hkeep by congruence. trivial.
  - simpl. unfold select.
    destruct (nth_error (conversations st) i) as [conv|] eqn:E; [|exact Hsel].
    unfold selection_listed. simpl. apply in_map. now apply nth_error_In in E.
  - simpl. destruct (onFirstMessage_ids text now st) as [Hids Hcur].
    unfold selection_listed. now rewrite Hcur, Hids.
Qed.

(** X9.  After the mount and any sequence of sidebar actions (new chat,
    delete, select, first message), the selected conversation is one of the
    listed conversations or none is selected. *)
Theorem selection_always_listed (json : Json (list ConversationMetadata))
    (now1 now2 : Z) (store : Storage) (actions : list Action)
    (mounted : AppState * Storage) :
  mount json now1 now2
    {| lastResponse := None; conversations := []; currentConvId := None |} store
  = Return mounted ->
  selection_listed (fst (run_actions json actions mounted)).
Proof.
  intros Hmount.
  assert (Hstart : selection_listed (fst mounted)).
  { unfold mount in Hmount.
    destruct (saved_value (getItem conversations_key store)) as [saved|].
    - destruct (parse json saved) as [saved_list|]; [|discriminate].
      inversion Hmount; subst mounted. simpl.
      destruct saved_list as [|c r]; simpl; unfold selection_listed; simpl; auto.
    - inversion Hmount; subst mounted. unfold selection_listed. simpl. now left. }
  clear Hmount. revert mounted Hstart.
  unfold run_actions. induction actions as [|a r IH]; intros s Hs; [exact Hs|].
  simpl. apply IH. now apply act_selection.
Qed.

Definition no_json : Json (list ConversationMetadata) :=
  {| stringify := fun _ => "[conversations]"; parse := fun _ => None |}.

Lemma selection_always_listed_witness :
  mount no_json 1 2
    {| lastResponse := None; conversations := []; currentConvId := None |}
    (fun _ => None)
  = Return (createNewChat no_json 1 2
              {| lastResponse := None; conversations := []; currentConvId := None |}
              (fun _ => None))
  /\ selection_listed
       (fst (run_actions no_json [NewChat 3 4; DeleteChat "chat_3"; Select 0]
               (createNewChat no_json 1 2
                  {| lastResponse := None; conversations := [];
                     currentConvId := None |}
                  (fun _ => None)))).
Proof.
  split; [reflexivity|].
  exact (selection_always_listed no_json 1 2 (fun _ => None)
           [NewChat 3 4; DeleteChat "chat_3"; Select 0] _ eq_refl).
Defined.

(** X10.  Deleting the only conversation empties the list and the
    selection but does not update the saved list: the effect that saves the
    conversations skips an empty list, so the storage still holds what was
    saved before the deletion. *)
Theorem delete_last_keeps_saved_list (json : Json (list ConversationMetadata))
    (c : ConversationMetadata) (st : AppState) (store : Storage) :
  conversations st = [c] ->
  currentConvId st = Some (conv_id c) ->
  let '(st', store') := act json (DeleteChat (conv_id c)) (st, store) in
  conversations st' = []
  /\ currentConvId st' = None
  /\ getItem conversations_key store' = getItem conversations_key store.
Proof.
  intros Hconv Hcur. unfold act, deleteChat. cbv zeta.
  rewrite Hconv, Hcur. simpl filter. rewrite !String.eqb_refl. simpl.
  split; [reflexivity|]. split; [reflexivity|].
  unfold persist_conversations. simpl.
  rewrite getItem_removeItem.
  destruct (String.eqb_spec conversations_key (messages_key (conv_id c))) as [E|];
    [|reflexivity].
  symmetry in E. now apply messages_key_not_list in E.
Qed.

Definition only_chat : ConversationMetadata :=
  {| conv_id := "chat_1"; title := "New Chat"; lastUpdated := 1 |}.

Definition one_chat : AppState :=
  {| lastResponse := None; conversations := [only_chat];
     currentConvId := Some "chat_1" |}.

Definition saved_one_chat : Storage :=
  setItem conversations_key "[conversations]" (fun _ => None).

Lemma delete_last_keeps_saved_list_witness :
  conversations one_chat = [only_chat]
  /\ currentConvId one_chat = Some (conv_id only_chat)
  /\ let '(st', store') := act no_json (DeleteChat "chat_1") (one_chat, saved_one_chat) in
     conversations st' = []
     /\ currentConvId st' = None
     /\ getItem conversations_key store' = getItem conversations_key saved_one_chat.
Proof.
  split; [reflexivity|]. split; [reflexivity|].
  exact (delete_last_keeps_saved_list no_json only_chat one_chat saved_one_chat
           eq_refl eq_refl).
Defined.

End AppFacts.

(** ** [App], [Chat] and the panel together *)
Module CompositionFacts.
Import Js Text Models Api Chat DebugPanel Browser ChatEffects App.
Import StringFacts ArrayFacts ChatFacts AppFacts.

Lemma slice_first {A : Type} (n : nat) (l : list A) :
  slice 0 (Some (Z.of_nat n)) l = firstn n l.
Proof.
  unfold slice, relative_index. change (0 <? 0)%Z with false. cbv iota.
  destruct (Z.ltb_spec (Z.of_nat n) 0) as [H|_]; [lia|].
  rewrite (Z.min_l 0) by lia. change (Z.to_nat 0) with 0%nat. simpl skipn.
  replace (Z.to_nat (Z.min (Z.of_nat n) (Z.of_nat (List.length l)) - 0))
    with (Nat.min n (List.length l)) by lia.
  destruct (Nat.le_ge_cases n (List.length l)) as [H|H].
  - now rewrite Nat.min_l.
  - rewrite Nat.min_r by assumption. rewrite !firstn_all2; [reflexivity | lia | lia].
Qed.

Lemma code_units_sum_app l1 l2 :
  list_sum (map code_units (l1 ++ l2))
  = (list_sum (map code_units l1) + list_sum (map code_units l2))%nat.
Proof. now rewrite map_app, list_sum_app. Qed.

Lemma list_ascii_of_string_app s1 s2 :
  list_ascii_of_string (s1 ++ s2)
  = list_ascii_of_string s1 ++ list_ascii_of_string s2.
Proof. induction s1 as [|c s1 IH]; simpl; [reflexivity | now rewrite IH]. Qed.

Lemma utf16_length_app s1 s2 :
  utf16_length (s1 ++ s2) = (utf16_length s1 + utf16_length s2)%nat.
Proof.
  unfold utf16_length. now rewrite list_ascii_of_string_app, code_units_sum_app.
Qed.

(** A cut after [n] code units leaves at most [n] code units. *)
Lemma take_units_length n l :
  (list_sum (map code_units (take_units n l)) <= n)%nat.
Proof.
  revert n. induction l as [|c r IH]; intros n; simpl; [lia|].
  destruct (is_continuation c) eqn:Hc.
  - simpl. unfold code_units at 1. rewrite Hc. apply IH.
  - destruct (starts_pair c) eqn:Hp.
    + destruct n as [|[|k]]; simpl; [lia | vm_compute; lia |].
      unfold code_units at 1. rewrite Hc, Hp. specialize (IH k). lia.
    + destruct n as [|k]; simpl; [lia|].
      unfold code_units at 1. rewrite Hc, Hp. specialize (IH k). lia.
Qed.

Lemma string_slice_length n s : (utf16_length (string_slice n s) <= n)%nat.
Proof.
  unfold utf16_length, string_slice.
  rewrite list_ascii_of_string_of_list_ascii. apply take_units_length.
Qed.

(** On a text of ASCII characters the cut is a cut of the bytes. *)
Lemma string_slice_ascii n s :
  all_chars is_ascii s = true ->
  string_slice n s = string_of_list_ascii (firstn n (list_ascii_of_string s)).
Proof.
  unfold string_slice. intros H. f_equal.
  revert n. induction s as [|c s IH]; intros n; [now destruct n|].
  simpl in H. apply andb_prop in H as [Hc Hs].
  assert (Hcont : is_continuation c = false).
  { unfold is_ascii in Hc. apply Nat.ltb_lt in Hc. unfold is_continuation.
    apply andb_false_iff. left. apply Nat.leb_gt. exact Hc. }
  assert (Hpair : starts_pair c = false).
  { unfold is_ascii in Hc. apply Nat.ltb_lt in Hc. unfold starts_pair.
    apply Nat.leb_gt. lia. }
  simpl. rewrite Hcont, Hpair.
  destruct n as [|k]; [reflexivity|]. simpl. f_equal. now apply IH.
Qed.

(** Thirty-one times the two bytes of an accented letter are cut after
    the thirtieth letter; a character beyond U+FFFF that the cut would
    split leaves an unpaired surrogate. *)
Example string_slice_counts_code_units :
  string_slice 30 (string_of_list_ascii (List.concat (repeat (utf8 [195; 169]%nat) 31)))
  = string_of_list_ascii (List.concat (repeat (utf8 [195; 169]%nat) 30))
  /\ string_slice 2 (string_of_list_ascii (utf8 [97; 240; 159; 152; 128; 98]%nat))
     = string_of_list_ascii (utf8 [97; 239; 191; 189]%nat)
  /\ string_slice 3 (string_of_list_ascii (utf8 [97; 240; 159; 152; 128; 98]%nat))
     = string_of_list_ascii (utf8 [97; 240; 159; 152; 128]%nat).
Proof. repeat split; reflexivity. Qed.

(** X11.  The first message of a conversation names it: when [handleSend]
    sends from a conversation without messages, the selected conversation
    keeps its id, is dated with the time of the update and gets as title
    the first 30 characters (UTF-16 code units) of the question and three
    dots, at most 33 characters; every other conversation and the order of
    the list stay as they are.  A later message changes no title. *)
Theorem first_message_names_conversation
    (askApi : QueryRequest -> Completion QueryResponse) (now1 now2 now : Z)
    (chat : ChatState) (app : AppState) (id : string) :
  blocked chat = false ->
  currentConvId app = Some id ->
  id <> EmptyString ->
  let app' := after_send now (handleSend askApi now1 now2 chat) app in
  (messages chat = [] ->
   map conv_id (conversations app') = map conv_id (conversations app)
   /\ forall i c,
        nth_error (conversations app) i = Some c ->
        exists c',
          nth_error (conversations app') i = Some c'
          /\ (conv_id c <> id -> c' = c)
          /\ (conv_id c = id ->
              conv_id c' = id
              /\ lastUpdated c' = now
              /\ title c' = (string_slice 30 (inputValue chat) ++ "...")%string
              /\ (utf16_length (title c') <= 33)%nat))
  /\ (messages chat <> [] -> conversations app' = conversations app).
Proof.
  intros Hb Hcur Hid app'.
  destruct (handleSend_sent askApi now1 now2 chat Hb) as (_ & _ & _ & Hrun).
  cbv zeta in Hrun.
  assert (Hfirst : first_message (handleSend askApi now1 now2 chat)
                   = if (List.length (messages chat) =? 0)%nat
                     then Some (inputValue chat) else None).
  { unfold handleSend. fold (blocked chat). rewrite Hb.
    now destruct (askApi _). }
  assert (Hconv : conversations app'
                  = conversations
                      (match first_message (handleSend askApi now1 now2 chat) with
                       | Some text => onFirstMessage text now app
                       | None => app
                       end)).
  { subst app'. unfold after_send.
    now destruct (metadata_update (handleSend askApi now1 now2 chat)). }
  rewrite Hconv, Hfirst. split.
  - intros Hempty. rewrite Hempty. simpl.
    unfold onFirstMessage. rewrite Hcur.
    rewrite (StorageFacts.truthy_string_true _ Hid).
    split; [apply updateTitle_ids|].
    intros i c Hnth. unfold updateTitle. simpl.
    rewrite nth_error_map, Hnth. simpl.
    eexists. split; [reflexivity|].
    destruct (String.eqb_spec (conv_id c) id) as [E|E].
    + split; [contradiction|]. intros _. simpl.
      split; [exact E|]. split; [reflexivity|]. split; [reflexivity|].
      rewrite utf16_length_app.
      pose proof (string_slice_length 30 (inputValue chat)) as Hlen.
      change (utf16_length "...") with 3%nat. lia.
    + split; [reflexivity | contradiction].
  - intros Hne. destruct (messages chat); [contradiction | reflexivity].
Qed.

Definition untitled : AppState :=
  {| lastResponse := None;
     conversations := [ {| conv_id := "chat_1"; title := "New Chat"; lastUpdated := 1 |} ];
     currentConvId := Some "chat_1" |}.

Definition first_question : ChatState :=
  {| messages := [];
     inputValue := "How do I integrate the billing API with our SSO?";
     isLoading := false |}.

Lemma first_message_names_conversation_witness :
  let app' :=
    after_send 5 (handleSend (fun _ => Throw fetch_failed) 3 4 first_question)
      untitled in
  blocked first_question = false
  /\ currentConvId untitled = Some "chat_1"
  /\ "chat_1" <> EmptyString
  /\ messages first_question = []
  /\ map title (conversations app') = ["How do I integrate the billing..."]
  /\ map conv_id (conversations app') = map conv_id (conversations untitled)
  /\ forall i c,
       nth_error (conversations untitled) i = Some c ->
       exists c',
         nth_error (conversations app') i = Some c'
         /\ (conv_id c <> "chat_1" -> c' = c)
         /\ (conv_id c = "chat_1" ->
             conv_id c' = "chat_1"
             /\ lastUpdated c' = 5%Z
             /\ title c' = (string_slice 30 (inputValue first_question) ++ "...")%string
             /\ (utf16_length (title c') <= 33)%nat).
Proof.
  intros app'.
  assert (Hid : "chat_1" <> EmptyString) by discriminate.
  split; [reflexivity|]. split; [reflexivity|]. split; [exact Hid|].
  split; [reflexivity|]. split; [reflexivity|].
  destruct (first_message_names_conversation (fun _ => Throw fetch_failed)
              3 4 5 first_question untitled "chat_1" eq_refl eq_refl Hid)
    as [H _].
  exact (H eq_refl).
Defined.

(** X12.  The panel shows the last answered request: after a request that
    [askApi] answered, the panel is the panel of that response; after a
    request that failed, or a call that sent nothing, the panel is what it
    was before (idle, or the previous response). *)
Theorem panel_follows_last_answer
    (askApi : QueryRequest -> Completion QueryResponse) (now1 now2 now : Z)
    (chat : ChatState) (app : AppState) :
  let run := handleSend askApi now1 now2 chat in
  let app' := after_send now run app in
  (forall response,
     blocked chat = false -> askApi (request_of chat) = Return response ->
     DebugPanel (lastResponse app') = DebugPanel (Some response))
  /\ (forall e,
        blocked chat = false -> askApi (request_of chat) = Throw e ->
        lastResponse app' = lastResponse app
        /\ msg_text (last (messages (state_after run)) (failure_message now2))
           = failure_text)
  /\ (blocked chat = true -> app' = app).
Proof.
  intros run app'.
  assert (Hlast : forall text st, lastResponse (onFirstMessage text now st)
                                  = lastResponse st).
  { intros text st. unfold onFirstMessage.
    destruct (currentConvId st) as [c|]; [|reflexivity].
    now destruct (truthy_string c). }
  split; [|split].
  - intros response Hb Hask.
    destruct (handleSend_sent askApi now1 now2 chat Hb) as (_ & _ & _ & Hrun).
    cbv zeta in Hrun. rewrite Hask in Hrun. destruct Hrun as [_ Hmeta].
    subst app' run. unfold after_send. rewrite Hmeta. reflexivity.
  - intros e Hb Hask.
    destruct (handleSend_sent askApi now1 now2 chat Hb) as (_ & _ & _ & Hrun).
    cbv zeta in Hrun. rewrite Hask in Hrun. destruct Hrun as [Hmsgs Hmeta].
    subst app' run. unfold after_send. rewrite Hmeta, Hmsgs. split.
    + destruct (first_message (handleSend askApi now1 now2 chat));
        [apply Hlast | reflexivity].
    + change [user_message now1 (inputValue chat); failure_message now2]
        with ([user_message now1 (inputValue chat)] ++ [failure_message now2]).
      rewrite app_assoc, last_last. reflexivity.
  - intros Hb. subst app' run. rewrite (handleSend_blocked _ _ _ _ Hb).
    reflexivity.
Qed.

(** X13.  The panel is idle exactly when there is no response; for a
    response it lists at most three sources, the first three of the
    response in their order, and shows no "Context Sources" section when
    the response has no sources. *)
Theorem DebugPanel_lists_first_sources (lastResponse : option QueryResponse) :
  (DebugPanel lastResponse = None <-> lastResponse = None)
  /\ forall response view,
       lastResponse = Some response ->
       DebugPanel lastResponse = Some view ->
       metrics view = metadata response
       /\ (context_sources view = None <-> sources response = [])
       /\ forall listed,
            context_sources view = Some listed ->
            listed = firstn 3 (sources response)
            /\ (List.length listed <= 3)%nat.
Proof.
  split.
  - destruct lastResponse; simpl; split; intros H; try discriminate; reflexivity.
  - intros response view -> Hview. simpl in Hview. inversion Hview; subst view.
    clear Hview. simpl. split; [reflexivity|].
    destruct (sources response) as [|s r] eqn:E; simpl.
    + split; [tauto|]. intros listed H. discriminate H.
    + split; [split; intros H; discriminate H|].
      intros listed H. inversion H; subst listed.
      change (Some 3%Z) with (Some (Z.of_nat 3)). rewrite slice_first.
      split; [reflexivity | apply firstn_le_length].
Qed.

(** X14.  [askApi] and [askStreamApi] fail alike: when [fetch] rejects, or
    resolves to a response that is not ok, both throw the same error, and
    the stream yields nothing before it throws. *)
Theorem api_calls_fail_alike (p : Platform) (request : QueryRequest)
    (outcome : FetchResult) :
  fetch p (API_BASE_URL p ++ "/query") request = outcome ->
  fetch p (API_BASE_URL p ++ "/query_stream") request = outcome ->
  (outcome = Rejected \/ exists response, outcome = Resolved response /\ ok response = false) ->
  exists e,
    askApi p request = Throw e
    /\ finished (askStreamApi p request) = Throw e
    /\ yielded (askStreamApi p request) = []
    /\ (forall response, outcome = Resolved response ->
          e = Error ("API error: " ++ string_of_Z (status response))).
Proof.
  intros Hquery Hstream Hfail. unfold askApi, askStreamApi.
  rewrite Hquery, Hstream.
  destruct Hfail as [->|(response & -> & Hok)].
  - exists fetch_failed. repeat split. intros response H. discriminate H.
  - rewrite Hok. simpl. exists (api_error response). repeat split.
    intros response' H. inversion H. reflexivity.
Qed.

Lemma api_calls_fail_alike_witness :
  ok ApiFacts.unavailable = false
  /\ exists e,
       askApi ApiFacts.failing_platform StreamFacts.any_request = Throw e
       /\ finished (askStreamApi ApiFacts.failing_platform StreamFacts.any_request)
          = Throw e
       /\ yielded (askStreamApi ApiFacts.failing_platform StreamFacts.any_request) = []
       /\ (forall response, Resolved ApiFacts.unavailable = Resolved response ->
             e = Error ("API error: " ++ string_of_Z (status response))).
Proof.
  split; [reflexivity|].
  exact (api_calls_fail_alike ApiFacts.failing_platform StreamFacts.any_request
           (Resolved ApiFacts.unavailable) eq_refl eq_refl
           (or_intror (ex_intro _ ApiFacts.unavailable (conj eq_refl eq_refl)))).
Defined.

End CompositionFacts.

(** ** The saved list of conversations *)
Module ReloadFacts.
Import Js Text Models Chat Browser ChatEffects App StorageFacts AppFacts.

(** X15.  A non-empty list of conversations that the effect saved is the
    list the next mount shows (given that JSON reads back what it wrote for
    it); the mount selects the first conversation of the list, whichever
    was selected before, and writes nothing. *)
Theorem conversations_survive_reload (json : Json (list ConversationMetadata))
    (now1 now2 : Z) (st fresh : AppState) (store : Storage) :
  conversations st <> [] ->
  parse json (stringify json (conversations st)) = Some (conversations st) ->
  stringify json (conversations st) <> EmptyString ->
  exists st',
    mount json now1 now2 fresh (persist_conversations json st store)
    = Return (st', persist_conversations json st store)
    /\ conversations st' = conversations st
    /\ currentConvId st' = first_id (conversations st)
    /\ lastResponse st' = lastResponse fresh.
Proof.
  intros Hne Hjson Hstr. unfold mount, persist_conversations.
  destruct (conversations st) as [|c r] eqn:E; [contradiction|].
  cbn [List.length Nat.ltb Nat.leb]. rewrite getItem_setItem, String.eqb_refl.
  unfold saved_value. rewrite (truthy_string_true _ Hstr), Hjson.
  cbn [List.length Nat.ltb Nat.leb].
  eexists. split; [reflexivity|]. repeat split.
Qed.

Definition two_chats : AppState :=
  {| lastResponse := None;
     conversations :=
       [ {| conv_id := "chat_2"; title := "New Chat"; lastUpdated := 2 |};
         {| conv_id := "chat_1"; title := "pricing?..."; lastUpdated := 1 |} ];
     currentConvId := Some "chat_1" |}.

Definition two_chats_json : Json (list ConversationMetadata) :=
  {| stringify := fun _ => "[conversations]";
     parse := fun s => if (s =? "[conversations]")%string
                       then Some (conversations two_chats) else None |}.

Lemma conversations_survive_reload_witness :
  conversations two_chats <> []
  /\ exists st',
       mount two_chats_json 3 4
         {| lastResponse := None; conversations := []; currentConvId := None |}
         (persist_conversations two_chats_json two_chats (fun _ => None))
       = Return (st', persist_conversations two_chats_json two_chats (fun _ => None))
       /\ conversations st' = conversations two_chats
       /\ currentConvId st' = first_id (conversations two_chats)
       /\ lastResponse st'
          = lastResponse
              {| lastResponse := None; conversations := []; currentConvId := None |}.
Proof.
  assert (Hne : conversations two_chats <> []) by discriminate.
  assert (Hstr : "[conversations]" <> EmptyString) by discriminate.
  split; [exact Hne|].
  exact (conversations_survive_reload two_chats_json 3 4 two_chats
           {| lastResponse := None; conversations := []; currentConvId := None |}
           (fun _ => None) Hne eq_refl Hstr).
Defined.

End ReloadFacts.
